(** * UPL fetch hooks: a shallow embedding of [src/modules/hooks/fetch.ts]

    The module keeps two hook tables (exact strings in a [Map], patterns in
    an array), installs [hookedFetch] over [window.fetch] through a run-once
    latch, and threads every intercepted request through the pre- and
    post-callback lists of the entry its URL resolves to.

    Modelling choices:
    - module-level variables ([_entriesText], [_entriesRegex], [_initOnce],
      [window.fetch]) are the fields of one record, passed explicitly;
    - a promise is represented by the way it settles ([Outcome]); the event
      loop is single-threaded, and the order of effects in one call of
      [hookedFetch] is the order in which the source performs them;
    - user callbacks are the environment of the program: they are scripts
      listing, in order, what a callback does with the continuation it is
      given, ending with the way its own promise settles;
    - the real transport is a parameter: any function from the calls made
      so far and the current call to the way the returned promise settles;
      every call is recorded, with its arguments, in the order it is made;
    - [init] objects are values: an assignment to a property of [init] is a
      new value of the variables of the module that hold the object.  What
      the caller of [fetch] later reads from its own [init] object is outside
      the model;
    - [Response] objects carry an identity, so that a clone and its original
      are told apart even when nothing else differs. *)

From stdpp Require Import base gmap strings list.

(** ** JavaScript values *)

Inductive JsError :=
| TypeError (msg : string)
| OtherError (msg : string).

(** How a promise settles: fulfilled, rejected, or never. *)
Inductive Outcome (A : Type) :=
| Resolved (a : A)
| Rejected (e : JsError)
| Pending.
Arguments Resolved {A} a.
Arguments Rejected {A} e.
Arguments Pending {A}.

(** How a function call completes. *)
Inductive Completion :=
| Normal
| Throw (e : JsError).

(** A [RegExp]: what [toString()] prints and what [test] answers.  Patterns
    are taken without the [g] and [y] flags, so [test] keeps no state. *)
Record RegExp := {
  re_toString : string;
  re_test : string -> bool
}.

(** The [endpoint] argument as it arrives at run time: the declared type is
    [string | RegExp], the last branch of the registration functions handles
    every other value. *)
Inductive Endpoint :=
| EndpointString (s : string)
| EndpointRegExp (r : RegExp)
| EndpointOther (typeof : string).

Abbreviation Headers := (list (string * string)) (only parsing).

(** [init.body]: a string, or any other present value (Blob, FormData,
    ArrayBuffer, null, ...), named by its kind. *)
Inductive BodyInit :=
| BodyString (s : string)
| BodyOther (kind : string).

Record RequestInit := {
  init_method : option string;
  init_headers : option Headers;
  init_body : option BodyInit
}.

(** A [Request] object: the properties [hookedFetch] reads.  [req_clone]
    is what [input.clone()] throws, when it throws (the body has been used
    or its stream is locked), and [req_text] is the way the [text()] of the
    clone settles when [clone()] returns: the text, or a failure. *)
Record Request := {
  req_url : string;
  req_method : string;
  req_headers : option Headers;
  req_clone : option JsError;
  req_text : string + JsError
}.

Inductive FetchInput :=
| InputString (s : string)
| InputURL (href : string)
| InputRequest (r : Request)
| InputOther (str : string).

(** A [Response] object: its identity, its status, the text of its body
    stream, and the [text] method when a callback has replaced it (the way
    the replacement settles when called). *)
Record Response := {
  resp_obj : nat;
  resp_status : nat;
  resp_body : string;
  resp_text : option (Outcome string)
}.

(** [response.text()] *)
Definition text (r : Response) : Outcome string :=
  match resp_text r with
  | Some o => o
  | None => Resolved (resp_body r)
  end.

(** ** Callbacks *)

(** What a pre-callback does once called with [(input, init, original)]:
    it writes to the console, calls [original] with a request of its choice
    and goes on from the way the returned promise settles, and in the end
    the promise it returned settles. *)
Inductive PreScript :=
| PreSettle (o : Outcome Response)
| PreConsoleError (msg : string) (k : PreScript)
| PreOriginal (input : FetchInput) (init : option RequestInit)
    (k : Outcome Response -> PreScript).

Abbreviation HookPreCallback := (FetchInput -> option RequestInit -> PreScript) (only parsing).

(** What a post-callback does once called with [(response, original)]: it
    clones the response, replaces its [text] method, calls [original] (and
    sees whether that call threw), and returns or throws. *)
Inductive PostScript :=
| PostReturn
| PostThrow (e : JsError)
| PostClone (k : Response -> PostScript)
| PostSetText (t : Outcome string) (k : PostScript)
| PostOriginal (k : Completion -> PostScript).

Abbreviation HookPostCallback := (Response -> PostScript) (only parsing).

(** What a text pre-callback does with [(body, original)]: calls to
    [original], each with a new body or [undefined], then return or throw. *)
Inductive TextPreScript :=
| TextPreReturn
| TextPreThrow (e : JsError)
| TextPreOriginal (newBody : option string) (k : TextPreScript).

Abbreviation HookTextPreCallback := (option string -> TextPreScript) (only parsing).

Inductive TextPostScript :=
| TextPostReturn
| TextPostThrow (e : JsError)
| TextPostOriginal (newBody : string) (k : TextPostScript).

Abbreviation HookTextPostCallback := (string -> TextPostScript) (only parsing).

Record HookEntry := {
  pre_callback : list HookPreCallback;
  post_callback : list HookPostCallback
}.

(** ** Module state *)

Inductive FetchImpl := OriginalFetch | HookedFetch.

(** Modelled from the spec: the class [Once] of [src/utils/once], which is
    not among the sources.  The spec describes it as a reusable run-once
    primitive, a one-shot trigger that fires on first use and performs its
    action exactly once per process lifetime. *)
Record Once := { once_triggered : bool }.

Record Hooks := {
  _entriesText : gmap string HookEntry;
  _entriesRegex : list (RegExp * HookEntry);
  _initOnce : Once;
  window_fetch : FetchImpl;
  (** how many times [window.fetch = hookedFetch] has been executed *)
  fetch_assignments : nat
}.

(** The module as loaded: empty tables, the latch not fired, the real
    transport in place. *)
Definition loaded : Hooks :=
  {| _entriesText := ∅; _entriesRegex := []; _initOnce := {| once_triggered := false |};
     window_fetch := OriginalFetch; fetch_assignments := 0 |}.

(** [function init() { window.fetch = hookedFetch; }] *)
Definition init (h : Hooks) : Hooks :=
  {| _entriesText := _entriesText h; _entriesRegex := _entriesRegex h;
     _initOnce := _initOnce h;
     window_fetch := HookedFetch; fetch_assignments := S (fetch_assignments h) |}.

(** Modelled from the spec: [Once.trigger()] of [src/utils/once], applied to
    [_initOnce = new Once(init)]: the first call runs the action and closes
    the latch, later calls do nothing. *)
Definition _initOnce_trigger (h : Hooks) : Hooks :=
  if once_triggered (_initOnce h) then h
  else
    init {| _entriesText := _entriesText h; _entriesRegex := _entriesRegex h;
            _initOnce := {| once_triggered := true |};
            window_fetch := window_fetch h; fetch_assignments := fetch_assignments h |}.

Definition set_entriesText (m : gmap string HookEntry) (h : Hooks) : Hooks :=
  {| _entriesText := m; _entriesRegex := _entriesRegex h; _initOnce := _initOnce h;
     window_fetch := window_fetch h; fetch_assignments := fetch_assignments h |}.

Definition set_entriesRegex (l : list (RegExp * HookEntry)) (h : Hooks) : Hooks :=
  {| _entriesText := _entriesText h; _entriesRegex := l; _initOnce := _initOnce h;
     window_fetch := window_fetch h; fetch_assignments := fetch_assignments h |}.

(** [entry.pre_callback.push(callback)] and [entry.post_callback.push(callback)] *)
Definition push_pre (callback : HookPreCallback) (entry : HookEntry) : HookEntry :=
  {| pre_callback := pre_callback entry ++ [callback]; post_callback := post_callback entry |}.

Definition push_post (callback : HookPostCallback) (entry : HookEntry) : HookEntry :=
  {| pre_callback := pre_callback entry; post_callback := post_callback entry ++ [callback] |}.

(** [hookPre]: the latch first, then the table chosen by the type of the
    endpoint.  [_entriesRegex.find(...)] returns the first pair whose pattern
    prints like [endpoint]; pushing on its entry mutates the array element at
    the position where it was found. *)
Definition hookPre (endpoint : Endpoint) (callback : HookPreCallback)
    (h : Hooks) : Completion * Hooks :=
  let h := _initOnce_trigger h in
  match endpoint with
  | EndpointString s =>
      match _entriesText h !! s with
      | None =>
          let entry := {| pre_callback := [callback]; post_callback := [] |} in
          (Normal, set_entriesText (<[s := entry]> (_entriesText h)) h)
      | Some entry =>
          (Normal, set_entriesText (<[s := push_pre callback entry]> (_entriesText h)) h)
      end
  | EndpointRegExp r =>
      match list_find (λ x, re_toString x.1 = re_toString r) (_entriesRegex h) with
      | None =>
          (Normal, set_entriesRegex
             (_entriesRegex h ++ [(r, {| pre_callback := [callback]; post_callback := [] |})]) h)
      | Some (i, existingEntry) =>
          (Normal, set_entriesRegex
             (<[i := (existingEntry.1, push_pre callback existingEntry.2)]> (_entriesRegex h)) h)
      end
  | EndpointOther _ => (Throw (TypeError "Invalid endpoint type!"), h)
  end.

Definition hookPost (endpoint : Endpoint) (callback : HookPostCallback)
    (h : Hooks) : Completion * Hooks :=
  let h := _initOnce_trigger h in
  match endpoint with
  | EndpointString s =>
      match _entriesText h !! s with
      | None =>
          let entry := {| pre_callback := []; post_callback := [callback] |} in
          (Normal, set_entriesText (<[s := entry]> (_entriesText h)) h)
      | Some entry =>
          (Normal, set_entriesText (<[s := push_post callback entry]> (_entriesText h)) h)
      end
  | EndpointRegExp r =>
      match list_find (λ x, re_toString x.1 = re_toString r) (_entriesRegex h) with
      | None =>
          (Normal, set_entriesRegex
             (_entriesRegex h ++ [(r, {| pre_callback := []; post_callback := [callback] |})]) h)
      | Some (i, existingEntry) =>
          (Normal, set_entriesRegex
             (<[i := (existingEntry.1, push_post callback existingEntry.2)]> (_entriesRegex h)) h)
      end
  | EndpointOther _ => (Throw (TypeError "Invalid endpoint type!"), h)
  end.

(** [findMatchingEntry]: the exact string first, then the first pattern
    that tests true. *)
Definition findMatchingEntry (h : Hooks) (url : string) : option HookEntry :=
  match _entriesText h !! url with
  | Some exactMatch => Some exactMatch
  | None =>
      match List.find (fun x => re_test (fst x) url) (_entriesRegex h) with
      | Some regexMatch => Some (snd regexMatch)
      | None => None
      end
  end.

(** ** The world outside the module *)

(** One call of the real transport: the two arguments it received. *)
Abbreviation Call := (FetchInput * option RequestInit)%type (only parsing).

(** What a fulfilled transport promise carries. *)
Record Payload := { status : nat; body : string }.

(** The transport calls made so far (oldest first), the lines written with
    [console.error], and the identity of the next object to be created. *)
Record World := {
  w_calls : list Call;
  w_console : list string;
  w_next_obj : nat
}.

Definition console_error (msg : string) (w : World) : World :=
  {| w_calls := w_calls w; w_console := w_console w ++ [msg]; w_next_obj := w_next_obj w |}.

(** [response.clone()]: a new object with the same status and body stream
    and the native [text] method. *)
Definition clone (response : Response) (w : World) : Response * World :=
  ({| resp_obj := w_next_obj w; resp_status := resp_status response;
      resp_body := resp_body response; resp_text := None |},
   {| w_calls := w_calls w; w_console := w_console w; w_next_obj := S (w_next_obj w) |}).

(** [response.text = async function() { ... }] on the object itself. *)
Definition set_text (t : Outcome string) (response : Response) : Response :=
  {| resp_obj := resp_obj response; resp_status := resp_status response;
     resp_body := resp_body response; resp_text := Some t |}.

Definition set_body (b : BodyInit) (i : RequestInit) : RequestInit :=
  {| init_method := init_method i; init_headers := init_headers i; init_body := Some b |}.

Definition set_headers (hd : Headers) (i : RequestInit) : RequestInit :=
  {| init_method := init_method i; init_headers := Some hd; init_body := init_body i |}.

Definition set_method (m : string) (i : RequestInit) : RequestInit :=
  {| init_method := Some m; init_headers := init_headers i; init_body := init_body i |}.

(** The object literal [{}] *)
Definition empty_init : RequestInit :=
  {| init_method := None; init_headers := None; init_body := None |}.

(** Of two promises watched by the same [resolve]/[reject] pair, the one
    that settles decides; when both settle, the one created first is taken
    to settle first. *)
Definition first_settled {A} (a b : Outcome A) : Outcome A :=
  match a with
  | Pending => b
  | _ => a
  end.

(** ** Text adapters *)

(** The executor of the promise made by the pre-callback of [hookTextPre]:
    the user callback runs with [_original]; every call of [_original]
    stores the new body in [init] when both are defined, calls [original]
    and forwards the way that promise settles to [resolve]/[reject]; a throw
    of the callback is caught and rejects at once, before any forwarded
    result can arrive; a callback that returns without calling [_original]
    leaves the promise pending. *)
Fixpoint textPre_executor (s : TextPreScript) (input : FetchInput)
    (init : option RequestInit) (settled : Outcome Response) : PreScript :=
  match s with
  | TextPreReturn => PreSettle settled
  | TextPreThrow error => PreSettle (Rejected error)
  | TextPreOriginal newBody k =>
      let init :=
        match newBody, init with
        | Some b, Some i => Some (set_body (BodyString b) i)
        | _, _ => init
        end in
      PreOriginal input init
        (fun o => textPre_executor k input init (first_settled settled o))
  end.

(** The raw pre-callback that [hookTextPre] hands to [hookPre]. *)
Definition textPre_callback (callback : HookTextPreCallback) : HookPreCallback :=
  fun input init =>
    match init with
    | Some i =>
        match init_body i with
        | Some (BodyOther _) =>
            PreConsoleError "UPL: Tried to hook text fetch request but body is not a string!"
              (PreOriginal input init PreSettle)
        | Some (BodyString b) => textPre_executor (callback (Some b)) input init Pending
        | None => textPre_executor (callback None) input init Pending
        end
    | None => textPre_executor (callback None) input init Pending
    end.

Definition hookTextPre (endpoint : Endpoint) (callback : HookTextPreCallback)
    (h : Hooks) : Completion * Hooks :=
  hookPre endpoint (textPre_callback callback) h.

(** The promise made inside the replaced [text] method: the first call of
    [_original] resolves it, a throw before that rejects it, and a callback
    that returns without calling [_original] leaves it pending. *)
Definition textPost_executor (s : TextPostScript) : Outcome string :=
  match s with
  | TextPostReturn => Pending
  | TextPostThrow e => Rejected e
  | TextPostOriginal newBody _ => Resolved newBody
  end.

(** The replaced [text] method: it awaits [originalClone.text()], then runs
    the executor. *)
Definition textPost_text (callback : HookTextPostCallback) (originalClone : Response)
    : Outcome string :=
  match text originalClone with
  | Resolved t => textPost_executor (callback t)
  | Rejected e => Rejected e
  | Pending => Pending
  end.

(** The raw post-callback that [hookTextPost] hands to [hookPost]. *)
Definition textPost_callback (callback : HookTextPostCallback) : HookPostCallback :=
  fun response =>
    PostClone (fun originalClone =>
      PostSetText (textPost_text callback originalClone)
        (PostOriginal (fun c =>
           match c with
           | Normal => PostReturn
           | Throw e => PostThrow e
           end))).

Definition hookTextPost (endpoint : Endpoint) (callback : HookTextPostCallback)
    (h : Hooks) : Completion * Hooks :=
  hookPost endpoint (textPost_callback callback) h.

(** ** The pipeline *)

Section Pipeline.

(** [_originalFetch = window.fetch] as captured when the module loads: how
    the promise of a call settles, given the calls made before it. *)
Variable transport : list Call -> Call -> Outcome Payload.

Definition _originalFetch (input : FetchInput) (init : option RequestInit)
    (w : World) : Outcome Response * World :=
  let calls := w_calls w ++ [(input, init)] in
  match transport (w_calls w) (input, init) with
  | Resolved p =>
      (Resolved {| resp_obj := w_next_obj w; resp_status := status p;
                   resp_body := body p; resp_text := None |},
       {| w_calls := calls; w_console := w_console w; w_next_obj := S (w_next_obj w) |})
  | Rejected e =>
      (Rejected e,
       {| w_calls := calls; w_console := w_console w; w_next_obj := w_next_obj w |})
  | Pending =>
      (Pending,
       {| w_calls := calls; w_console := w_console w; w_next_obj := w_next_obj w |})
  end.

(** Lines 158-197: the URL string of the request, and the [input] and
    [init] the rest of the function works with; or the error that ends the
    function there.  [input.clone()] of line 182 stands before the [try]
    of line 183, so what it throws leaves the function, and only a failure
    of [clonedRequest.text()] reaches the [catch] of line 189. *)
Definition normalize (input : FetchInput) (init : option RequestInit) (w : World)
    : (string * FetchInput * option RequestInit * World) + JsError :=
  match input with
  | InputString s => inl (s, input, init, w)
  | InputURL href => inl (href, input, init, w)
  | InputRequest r =>
      let url := req_url r in
      let i := match init with Some i => i | None => empty_init end in
      let i := match req_headers r with Some hd => set_headers hd i | None => i end in
      let i := if String.eqb (req_method r) "" then i else set_method (req_method r) i in
      if negb (String.eqb (req_method r) "GET") && negb (String.eqb (req_method r) "HEAD")
      then
        match req_clone r with
        | Some e => inr e
        | None =>
            match req_text r with
            | inl b =>
                inl (url, InputString url,
                     Some (if String.eqb b "" then i else set_body (BodyString b) i), w)
            | inr _ =>
                inl (url, InputString url, Some i,
                     console_error "UPL: Failed to get body from Request object" w)
            end
        end
      else inl (url, InputString url, Some i, w)
  | InputOther str => inl (str, input, init, w)
  end.

(** One pre-callback at work.  [original] assigns the variables [input]
    and [init] of [hookedFetch] and calls the transport, all before it
    returns its promise. *)
Fixpoint run_pre (s : PreScript) (input : FetchInput) (init : option RequestInit)
    (w : World) : Outcome Response * FetchInput * option RequestInit * World :=
  match s with
  | PreSettle o => (o, input, init, w)
  | PreConsoleError msg k => run_pre k input init (console_error msg w)
  | PreOriginal _input _init k =>
      let '(o, w) := _originalFetch _input _init w in
      run_pre (k o) _input _init w
  end.

(** Lines 210-223: each callback is a [then] handler on the promise of
    the one before it, so it runs when that promise is fulfilled, with the
    [input] and [init] of that moment; a rejected or pending promise passes
    through the remaining links. *)
Fixpoint pre_chain (callbacks : list HookPreCallback) (finalPromise : Outcome Response)
    (input : FetchInput) (init : option RequestInit) (w : World)
    : Outcome Response * FetchInput * option RequestInit * World :=
  match callbacks with
  | [] => (finalPromise, input, init, w)
  | callback :: callbacks =>
      match finalPromise with
      | Resolved _ =>
          let '(o, input, init, w) := run_pre (callback input init) input init w in
          pre_chain callbacks o input init w
      | _ => pre_chain callbacks finalPromise input init w
      end
  end.

(** One post-callback at work on [clonedResponse]; [nextOriginal] is the
    continuation it was given, which reads and advances [index]. *)
Fixpoint run_post
    (nextOriginal : nat -> Response -> World -> Completion * nat * Response * World)
    (s : PostScript) (index : nat) (clonedResponse : Response) (w : World)
    : Completion * nat * Response * World :=
  match s with
  | PostReturn => (Normal, index, clonedResponse, w)
  | PostThrow e => (Throw e, index, clonedResponse, w)
  | PostClone k =>
      let '(c, w) := clone clonedResponse w in
      run_post nextOriginal (k c) index clonedResponse w
  | PostSetText t k => run_post nextOriginal k index (set_text t clonedResponse) w
  | PostOriginal k =>
      let '(c, index, clonedResponse, w) := nextOriginal index clonedResponse w in
      run_post nextOriginal (k c) index clonedResponse w
  end.

(** [applyNextPostCallback], with [index] and [clonedResponse] passed
    along.  A callback may call [nextOriginal] from inside its own call,
    so the recursion is on [fuel], a bound on the depth of such calls. *)
Fixpoint applyNextPostCallback (fuel : nat) (post_callback : list HookPostCallback)
    (index : nat) (clonedResponse : Response) (w : World)
    : Completion * nat * Response * World :=
  match fuel with
  | 0 => (Normal, index, clonedResponse, w)
  | S fuel =>
      match post_callback !! index with
      | None => (Normal, index, clonedResponse, w)
      | Some currentCallback =>
          run_post (applyNextPostCallback fuel post_callback)
            (currentCallback clonedResponse) (S index) clonedResponse w
      end
  end.

(** The depth of nested [nextOriginal] calls never exceeds the number of
    callbacks: every call that does anything moves [index] forward. *)
Definition post_fuel (post_callback : list HookPostCallback) : nat :=
  S (length post_callback).

Definition hookedFetch (h : Hooks) (input : FetchInput) (init : option RequestInit)
    (w : World) : Outcome Response * World :=
  match normalize input init w with
  | inr e => (Rejected e, w)
  | inl (url, input, init, w) =>
  match findMatchingEntry h url with
  | None => _originalFetch input init w
  | Some entry =>
      if 0 <? length (pre_callback entry) then
        let '(finalPromise, w) := _originalFetch input init w in
        let '(finalPromise, _, _, w) :=
          pre_chain (pre_callback entry) finalPromise input init w in
        match finalPromise with
        | Resolved response =>
            if 0 <? length (post_callback entry) then
              let '(clonedResponse, w) := clone response w in
              let '(c, _, _, w) :=
                applyNextPostCallback (post_fuel (post_callback entry))
                  (post_callback entry) 0 clonedResponse w in
              match c with
              | Normal => (Resolved response, w)
              | Throw e => (Rejected e, w)
              end
            else (Resolved response, w)
        | Rejected e => (Rejected e, w)
        | Pending => (Pending, w)
        end
      else
        let '(o, w) := _originalFetch input init w in
        match o with
        | Resolved response =>
            if 0 <? length (post_callback entry) then
              let '(clonedResponse, w) := clone response w in
              let '(c, _, clonedResponse, w) :=
                applyNextPostCallback (post_fuel (post_callback entry))
                  (post_callback entry) 0 clonedResponse w in
              match c with
              | Normal => (Resolved clonedResponse, w)
              | Throw e => (Rejected e, w)
              end
            else (Resolved response, w)
        | Rejected e => (Rejected e, w)
        | Pending => (Pending, w)
        end
  end
  end.

End Pipeline.

(** ** Sequences of registrations *)

(** A call of one of the four public registration functions. *)
Inductive Registration :=
| CallHookPre (endpoint : Endpoint) (callback : HookPreCallback)
| CallHookPost (endpoint : Endpoint) (callback : HookPostCallback)
| CallHookTextPre (endpoint : Endpoint) (callback : HookTextPreCallback)
| CallHookTextPost (endpoint : Endpoint) (callback : HookTextPostCallback).

Definition call (r : Registration) (h : Hooks) : Completion * Hooks :=
  match r with
  | CallHookPre endpoint callback => hookPre endpoint callback h
  | CallHookPost endpoint callback => hookPost endpoint callback h
  | CallHookTextPre endpoint callback => hookTextPre endpoint callback h
  | CallHookTextPost endpoint callback => hookTextPost endpoint callback h
  end.

(** The module after a sequence of calls, whether they returned or threw. *)
Definition after (rs : list Registration) (h : Hooks) : Hooks :=
  fold_left (fun h r => (call r h).2) rs h.

(** The part of the state the latch governs. *)
Definition latch (h : Hooks) : Once * FetchImpl * nat :=
  (_initOnce h, window_fetch h, fetch_assignments h).

(** *** What a sequence of registrations asks for *)

(** A matcher as the tables tell matchers apart: an exact string, or the
    printed source of a pattern.  Other values are no matcher. *)
Definition matcher (endpoint : Endpoint) : option (string + string) :=
  match endpoint with
  | EndpointString s => Some (inl s)
  | EndpointRegExp r => Some (inr (re_toString r))
  | EndpointOther _ => None
  end.

Definition reg_endpoint (r : Registration) : Endpoint :=
  match r with
  | CallHookPre endpoint _ | CallHookPost endpoint _
  | CallHookTextPre endpoint _ | CallHookTextPost endpoint _ => endpoint
  end.

(** The raw callbacks a registration adds: one pre-callback or one
    post-callback. *)
Definition reg_pre (r : Registration) : list HookPreCallback :=
  match r with
  | CallHookPre _ callback => [callback]
  | CallHookTextPre _ callback => [textPre_callback callback]
  | _ => []
  end.

Definition reg_post (r : Registration) : list HookPostCallback :=
  match r with
  | CallHookPost _ callback => [callback]
  | CallHookTextPost _ callback => [textPost_callback callback]
  | _ => []
  end.

Definition registered (k : string + string) (rs : list Registration) : Prop :=
  Exists (λ r, matcher (reg_endpoint r) = Some k) rs.

#[global] Instance registered_dec k rs : Decision (registered k rs).
Proof. unfold registered. apply _. Defined.

(** The callbacks registered for matcher [k], in registration order. *)
Definition pres_for (k : string + string) (rs : list Registration) : list HookPreCallback :=
  flat_map (λ r, if decide (matcher (reg_endpoint r) = Some k) then reg_pre r else []) rs.

Definition posts_for (k : string + string) (rs : list Registration) : list HookPostCallback :=
  flat_map (λ r, if decide (matcher (reg_endpoint r) = Some k) then reg_post r else []) rs.

Definition entry_for (k : string + string) (rs : list Registration) : HookEntry :=
  {| pre_callback := pres_for k rs; post_callback := posts_for k rs |}.

(** The patterns registered, one per distinct printed source, each where
    its source was first registered and as the object registered then. *)
Definition note_pattern (acc : list RegExp) (r : Registration) : list RegExp :=
  match reg_endpoint r with
  | EndpointRegExp re =>
      if decide (re_toString re ∈ map re_toString acc) then acc else acc ++ [re]
  | _ => acc
  end.

Definition patterns (rs : list Registration) : list RegExp :=
  fold_left note_pattern rs [].

Definition empty_entry : HookEntry := {| pre_callback := []; post_callback := [] |}.

Definition add_callbacks (pre : list HookPreCallback) (post : list HookPostCallback)
    (entry : HookEntry) : HookEntry :=
  {| pre_callback := pre_callback entry ++ pre; post_callback := post_callback entry ++ post |}.

(** The spec's words for resolution: an exact string lookup, and on a miss
    a scan of the pattern entries in order, returning the first whose
    pattern matches. *)
Fixpoint scan_patterns (url : string) (l : list (RegExp * HookEntry)) : option HookEntry :=
  match l with
  | [] => None
  | x :: l => if re_test x.1 url then Some x.2 else scan_patterns url l
  end.

Definition resolve (h : Hooks) (url : string) : option HookEntry :=
  match _entriesText h !! url with
  | Some entry => Some entry
  | None => scan_patterns url (_entriesRegex h)
  end.

(** *** What a pre-callback does with its continuation *)

(** The script contains no call of [original]. *)
Fixpoint never_invokes (s : PreScript) : Prop :=
  match s with
  | PreSettle _ => True
  | PreConsoleError _ k => never_invokes k
  | PreOriginal _ _ _ => False
  end.

(** The script calls [original] once, and never again however that call
    turns out. *)
Fixpoint invokes_once (s : PreScript) : Prop :=
  match s with
  | PreSettle _ => False
  | PreConsoleError _ k => invokes_once k
  | PreOriginal _ _ k => ∀ o, never_invokes (k o)
  end.

(** The request of the first call of [original], if there is one. *)
Fixpoint the_call (s : PreScript) : option Call :=
  match s with
  | PreSettle _ => None
  | PreConsoleError _ k => the_call k
  | PreOriginal input init _ => Some (input, init)
  end.

(** For a script without calls of [original]: how its promise settles and
    what it writes to the console. *)
Fixpoint settles (s : PreScript) : Outcome Response :=
  match s with
  | PreSettle o => o
  | PreConsoleError _ k => settles k
  | PreOriginal _ _ _ => Pending
  end.

Fixpoint writes (s : PreScript) : list string :=
  match s with
  | PreSettle _ => []
  | PreConsoleError msg k => msg :: writes k
  | PreOriginal _ _ _ => []
  end.

Definition console_errors (msgs : list string) (w : World) : World :=
  {| w_calls := w_calls w; w_console := w_console w ++ msgs; w_next_obj := w_next_obj w |}.

(** The text callbacks [(body, orig) => orig(body)]. *)
Definition identityTextPre : HookTextPreCallback :=
  fun body => TextPreOriginal body TextPreReturn.

Definition identityTextPost : HookTextPostCallback :=
  fun body => TextPostOriginal body TextPostReturn.

(** Whether a matcher applies to a URL: the exact string, or a pattern
    that tests true. *)
Definition applies (endpoint : Endpoint) (url : string) : bool :=
  match endpoint with
  | EndpointString s => String.eqb s url
  | EndpointRegExp re => re_test re url
  | EndpointOther _ => false
  end.

Definition is_Request (input : FetchInput) : bool :=
  match input with
  | InputRequest _ => true
  | _ => false
  end.

(** *** Concrete callbacks and transports for the examples *)

(** A transport that answers every call with status 200 and body ["ok"]. *)
Definition transport_ok : list Call -> Call -> Outcome Payload :=
  fun _ _ => Resolved {| status := 200; body := "ok" |}.


Definition world0 : World := {| w_calls := []; w_console := []; w_next_obj := 0 |}.

Definition response_ok : Response :=
  {| resp_obj := 0; resp_status := 200; resp_body := "ok"; resp_text := None |}.

(** [(input, init, original) => new Response("mock")]: no call of
    [original]. *)
Definition mock : HookPreCallback :=
  fun _ _ =>
    PreSettle (Resolved {| resp_obj := 1000; resp_status := 200;
                           resp_body := "mock"; resp_text := None |}).

(** [(input, init, original) => original(input, {...init, method: m})] *)
Definition with_method (m : string) : HookPreCallback :=
  fun input init =>
    PreOriginal input
      (Some (set_method m (match init with Some i => i | None => empty_init end)))
      PreSettle.

(** [(input, init, original) => original(input, init)] *)
Definition pass_through : HookPreCallback :=
  fun input init => PreOriginal input init PreSettle.

(** [(response, original) => { response.text = async () => "changed"; original(response); }] *)
Definition retext : HookPostCallback :=
  fun _ => PostSetText (Resolved "changed") (PostOriginal (fun _ => PostReturn)).

(** [(input, init, original) => original(input, {...init, body: b})] *)
Definition with_body (b : string) : HookPreCallback :=
  fun input init =>
    PreOriginal input
      (Some (set_body (BodyString b) (match init with Some i => i | None => empty_init end)))
      PreSettle.

(** A request whose body is a Blob. *)
Definition init_blob : RequestInit :=
  {| init_method := Some "POST"; init_headers := None; init_body := Some (BodyOther "Blob") |}.

Definition not_a_string : string :=
  "UPL: Tried to hook text fetch request but body is not a string!".

(** Two states of one object: the post-callbacks can replace the [text]
    method, nothing else. *)
Definition same_object (a b : Response) : Prop :=
  resp_obj a = resp_obj b ∧ resp_status a = resp_status b ∧ resp_body a = resp_body b.

(** [new Request("/foo")]: a GET request without a body. *)
Definition request_foo : Request :=
  {| req_url := "/foo"; req_method := "GET"; req_headers := Some [];
     req_clone := None; req_text := inl "" |}.

Definition init_text : RequestInit :=
  {| init_method := Some "POST"; init_headers := None; init_body := Some (BodyString "data") |}.

(** The entry made of the two identity text hooks. *)
Definition identity_entry : HookEntry :=
  {| pre_callback := [textPre_callback identityTextPre];
     post_callback := [textPost_callback identityTextPost] |}.

(** *** What a post-callback does with its continuation *)

(** The script contains no call of [original], whatever clone it gets. *)
Fixpoint post_never_invokes (s : PostScript) : Prop :=
  match s with
  | PostReturn => True
  | PostThrow _ => True
  | PostClone k => ∀ c, post_never_invokes (k c)
  | PostSetText _ k => post_never_invokes k
  | PostOriginal _ => False
  end.

(** A continuation with nothing behind it. *)
Definition no_next (index : nat) (clonedResponse : Response) (w : World)
    : Completion * nat * Response * World :=
  (Normal, index, clonedResponse, w).

(** A transport out of reach: every promise is rejected. *)
Definition transport_down : list Call -> Call -> Outcome Payload :=
  fun _ _ => Rejected (TypeError "Failed to fetch").

(** [async () => { throw new Error("boom") }] *)
Definition failing : HookPreCallback :=
  fun _ _ => PreSettle (Rejected (OtherError "boom")).

(** [(response, original) => { response.text = async () => "stopped" }]:
    no call of [original]. *)
Definition stop_here : HookPostCallback :=
  fun _ => PostSetText (Resolved "stopped") PostReturn.


(** [text => orig(text + "!")] *)
Definition exclaim : HookTextPostCallback :=
  fun t => TextPostOriginal (t ++ "!") TextPostReturn.

(** [text => orig(text + "?")] *)
Definition wonder : HookTextPostCallback :=
  fun t => TextPostOriginal (t ++ "?") TextPostReturn.


(** *** What a text pre-callback can do to a request *)

(** Two [init] arguments that agree on everything but the body. *)
Definition same_but_body (a b : option RequestInit) : Prop :=
  match a, b with
  | None, None => True
  | Some i, Some j => init_method i = init_method j ∧ init_headers i = init_headers j
  | _, _ => False
  end.

(** [init?.body] when it is absent or a string, as the text callback gets
    it; [textual] says that it is one of the two. *)
Definition body_text (init : option RequestInit) : option string :=
  match init ≫= init_body with
  | Some (BodyString b) => Some b
  | _ => None
  end.

Definition textual (init : option RequestInit) : Prop :=
  match init ≫= init_body with
  | Some (BodyOther _) => False
  | _ => True
  end.

(** The script ends by throwing [e]. *)
Fixpoint text_pre_throws (e : JsError) (s : TextPreScript) : Prop :=
  match s with
  | TextPreReturn => False
  | TextPreThrow e' => e' = e
  | TextPreOriginal _ k => text_pre_throws e k
  end.

(** [(body, orig) => { orig(b); throw new Error("late") }] *)
Definition send_then_throw (b : string) : HookTextPreCallback :=
  fun _ => TextPreOriginal (Some b) (TextPreThrow (OtherError "late")).

(** The [Request] object with another result of reading its body. *)
Definition with_req_text (t : string + JsError) (r : Request) : Request :=
  {| req_url := req_url r; req_method := req_method r;
     req_headers := req_headers r; req_clone := req_clone r; req_text := t |}.

Definition failed_to_get_body : string :=
  "UPL: Failed to get body from Request object".

(** A POST [Request] that can be cloned, and whose body stream fails while
    it is read: the [text()] of the clone is rejected. *)
Definition request_unreadable : Request :=
  {| req_url := "/foo"; req_method := "POST"; req_headers := Some [];
     req_clone := None;
     req_text := inr (OtherError "the body stream failed") |}.

(** A POST [Request] whose body has been read before: [clone()] throws. *)
Definition request_used : Request :=
  {| req_url := "/foo"; req_method := "POST"; req_headers := Some [];
     req_clone := Some (TypeError "Request body is already used");
     req_text := inl "data" |}.

(** A server that answers the first request it receives with 200 and
    ["first"], and every later one with 201 and ["second"]. *)
Definition transport_counting : list Call -> Call -> Outcome Payload :=
  fun before _ =>
    match before with
    | [] => Resolved {| status := 200; body := "first" |}
    | _ => Resolved {| status := 201; body := "second" |}
    end.


(** The script calls [original] once on every path, whatever clone it
    gets and however the call completes. *)
Fixpoint post_invokes_once (s : PostScript) : Prop :=
  match s with
  | PostReturn => False
  | PostThrow _ => False
  | PostClone k => ∀ c, post_invokes_once (k c)
  | PostSetText _ k => post_invokes_once k
  | PostOriginal k => ∀ c, post_never_invokes (k c)
  end.

(** The script calls [original] once at most on every path. *)
Fixpoint post_invokes_at_most_once (s : PostScript) : Prop :=
  match s with
  | PostReturn => True
  | PostThrow _ => True
  | PostClone k => ∀ c, post_invokes_at_most_once (k c)
  | PostSetText _ k => post_invokes_at_most_once k
  | PostOriginal k => ∀ c, post_never_invokes (k c)
  end.

(** [(body, orig) => orig("x")] *)
Definition replace_body (b : string) : HookTextPreCallback :=
  fun _ => TextPreOriginal (Some b) TextPreReturn.


(** ** Settings: [Setting] and [SettingsManager] of [src/modules/settings/simple-api.ts]

    A setting keeps its value in [localStorage], as JSON, under the key
    [upl_setting_<id>].  The platform is a parameter: the type of numbers
    with its order, [JSON.parse] and [JSON.stringify] (either may throw),
    whether [localStorage.setItem] accepts a write, and which listeners throw
    when called.  Listeners are named by a number, the identity of the
    function; a listener reports the value it is called with and does not
    call back into the setting. *)

(** [SettingValueType = boolean | number | string | object]; an object,
    array or null is kept as its JSON text. *)
Inductive SettingValueType (number : Type) :=
| VBoolean (b : bool)
| VNumber (n : number)
| VString (s : string)
| VObject (json : string).
Arguments VBoolean {number} b.
Arguments VNumber {number} n.
Arguments VString {number} s.
Arguments VObject {number} json.

Record Platform (number : Type) := {
  (** [a < b] on numbers *)
  number_lt : number -> number -> bool;
  (** [JSON.parse]; [None] when it throws *)
  JSON_parse : string -> option (SettingValueType number);
  (** [JSON.stringify]; [None] when it throws *)
  JSON_stringify : SettingValueType number -> option string;
  (** whether [localStorage.setItem(key, value)] returns, given the store *)
  setItem_ok : gmap string string -> string -> string -> bool;
  (** whether the listener throws when called with the value *)
  listener_throws : nat -> SettingValueType number -> bool
}.
Arguments number_lt {number} _ _ _.
Arguments JSON_parse {number} _ _.
Arguments JSON_stringify {number} _ _.
Arguments setItem_ok {number} _ _ _ _.
Arguments listener_throws {number} _ _ _.

Inductive ConsoleLine :=
| ConsoleWarn (msg : string)
| ConsoleError (msg : string).

(** The browser as a setting sees it: the store, the console, and the
    calls listeners have received, oldest first. *)
Record Browser (number : Type) := {
  localStorage : gmap string string;
  console : list ConsoleLine;
  heard : list (nat * SettingValueType number)
}.
Arguments localStorage {number} _.
Arguments console {number} _.
Arguments heard {number} _.

Record Setting (number : Type) := {
  _id : string;
  _key : string;
  _defaultValue : SettingValueType number;
  _validator : SettingValueType number -> bool;
  _listeners : list nat
}.
Arguments _id {number} _.
Arguments _key {number} _.
Arguments _defaultValue {number} _.
Arguments _validator {number} _ _.
Arguments _listeners {number} _.

Section SettingsModel.

Context {number : Type} (P : Platform number).

Definition console_log (line : ConsoleLine) (b : Browser number) : Browser number :=
  {| localStorage := localStorage b; console := console b ++ [line]; heard := heard b |}.

Definition store (key value : string) (b : Browser number) : Browser number :=
  {| localStorage := <[key := value]> (localStorage b); console := console b;
     heard := heard b |}.

(** [_save]: both [JSON.stringify] and [setItem] are inside the [try]. *)
Definition _save (s : Setting number) (value : SettingValueType number)
    (b : Browser number) : Browser number :=
  match JSON_stringify P value with
  | Some json =>
      if setItem_ok P (localStorage b) (_key s) json then store (_key s) json b
      else console_log (ConsoleError ("UPL: Failed to save setting " ++ _id s)) b
  | None => console_log (ConsoleError ("UPL: Failed to save setting " ++ _id s)) b
  end.

(** [_load]: a stored value that parses and passes the validator is kept;
    in every other case the default is saved. *)
Definition _load (s : Setting number) (b : Browser number) : Browser number :=
  match localStorage b !! _key s with
  | Some storedValue =>
      match JSON_parse P storedValue with
      | Some value => if _validator s value then b else _save s (_defaultValue s) b
      | None =>
          _save s (_defaultValue s)
            (console_log (ConsoleWarn ("UPL: Failed to load setting " ++ _id s)) b)
      end
  | None => _save s (_defaultValue s) b
  end.

(** [new Setting(id, defaultValue, validator)] *)
Definition new_Setting (id : string) (defaultValue : SettingValueType number)
    (validator : SettingValueType number -> bool) (b : Browser number)
    : Setting number * Browser number :=
  let s := {| _id := id; _key := "upl_setting_" ++ id; _defaultValue := defaultValue;
              _validator := validator; _listeners := [] |} in
  (s, _load s b).

Definition getValue (s : Setting number) (b : Browser number) : SettingValueType number :=
  match localStorage b !! _key s with
  | None => _defaultValue s
  | Some storedValue =>
      match JSON_parse P storedValue with
      | Some value => if _validator s value then value else _defaultValue s
      | None => _defaultValue s
      end
  end.

(** One turn of the loop over the listeners. *)
Definition notify (s : Setting number) (value : SettingValueType number)
    (b : Browser number) (listener : nat) : Browser number :=
  let b := {| localStorage := localStorage b; console := console b;
              heard := heard b ++ [(listener, value)] |} in
  if listener_throws P listener value
  then console_log (ConsoleError ("UPL: Error in setting listener for " ++ _id s)) b
  else b.

Definition setValue (s : Setting number) (value : SettingValueType number)
    (b : Browser number) : Browser number :=
  if negb (_validator s value)
  then console_log (ConsoleWarn ("UPL: Invalid value for setting " ++ _id s)) b
  else fold_left (notify s value) (_listeners s) (_save s value b).

Definition addListener (callback : nat) (s : Setting number) : Setting number :=
  {| _id := _id s; _key := _key s; _defaultValue := _defaultValue s;
     _validator := _validator s; _listeners := _listeners s ++ [callback] |}.

(** [indexOf] finds the first position of the function; [splice(index, 1)]
    removes it. *)
Definition removeListener (callback : nat) (s : Setting number) : Setting number :=
  match list_find (λ l, l = callback) (_listeners s) with
  | Some (index, _) =>
      {| _id := _id s; _key := _key s; _defaultValue := _defaultValue s;
         _validator := _validator s; _listeners := delete index (_listeners s) |}
  | None => s
  end.

(** [SettingsManager._createSetting]: the manager is its map [_settings]. *)
Definition _createSetting (id : string) (defaultValue : SettingValueType number)
    (validator : SettingValueType number -> bool)
    (_settings : gmap string (Setting number)) (b : Browser number)
    : Setting number * gmap string (Setting number) * Browser number :=
  match _settings !! id with
  | Some existing =>
      (existing, _settings,
       console_log (ConsoleWarn ("UPL: Setting " ++ id
                                   ++ " already exists, returning existing instance")) b)
  | None =>
      let '(setting, b) := new_Setting id defaultValue validator b in
      (setting, <[id := setting]> _settings, b)
  end.

Definition toggle_validator (value : SettingValueType number) : bool :=
  match value with
  | VBoolean _ => true
  | _ => false
  end.

Definition createToggle (id : string) (defaultValue : bool) :=
  _createSetting id (VBoolean defaultValue) toggle_validator.

Definition number_validator (min max : option number) (value : SettingValueType number)
    : bool :=
  match value with
  | VNumber x =>
      if match min with Some m => number_lt P x m | None => false end then false
      else if match max with Some m => number_lt P m x | None => false end then false
      else true
  | _ => false
  end.

Definition createNumber (id : string) (defaultValue : number) (min max : option number) :=
  _createSetting id (VNumber defaultValue) (number_validator min max).

Definition string_validator (maxLength : option nat) (value : SettingValueType number)
    : bool :=
  match value with
  | VString s =>
      if match maxLength with Some m => m <? String.length s | None => false end
      then false else true
  | _ => false
  end.

Definition createString (id : string) (defaultValue : string) (maxLength : option nat) :=
  _createSetting id (VString defaultValue) (string_validator maxLength).

(** A text between double quotes. *)
Definition quoted (t : string) : string :=
  String (Ascii.ascii_of_nat 34) (t ++ String (Ascii.ascii_of_nat 34) EmptyString).

(** [options.includes(x)] *)
Definition includes (options : list string) (x : string) : bool :=
  existsb (String.eqb x) options.

Definition select_validator (options : list string) (value : SettingValueType number)
    : bool :=
  match value with
  | VString s => includes options s
  | _ => false
  end.

Definition createSelect (id : string) (options : list string) (defaultValue : string)
    (_settings : gmap string (Setting number)) (b : Browser number) :=
  if includes options defaultValue
  then _createSetting id (VString defaultValue) (select_validator options) _settings b
  else
    _createSetting id (VString (hd "" options)) (select_validator options) _settings
      (console_log (ConsoleWarn ("UPL: Default value " ++ quoted defaultValue
                                   ++ " not in options for " ++ id)) b).

Definition getSetting (id : string) (_settings : gmap string (Setting number))
    : option (Setting number) :=
  _settings !! id.

End SettingsModel.

(** A platform for the examples: numbers are integers, JSON covers the
    booleans, the store accepts every write, and listener 7 throws. *)
Definition platform_Z : Platform Z :=
  {| number_lt := Z.ltb;
     JSON_parse := fun s =>
       if String.eqb s "true" then Some (VBoolean true)
       else if String.eqb s "false" then Some (VBoolean false)
       else None;
     JSON_stringify := fun v =>
       match v with
       | VBoolean true => Some "true"
       | VBoolean false => Some "false"
       | _ => None
       end;
     setItem_ok := fun _ _ _ => true;
     listener_throws := fun l _ => Nat.eqb l 7 |}.

Definition browser0 : Browser Z := {| localStorage := ∅; console := []; heard := [] |}.

(** A toggle ["t"], off by default, with listener 7 subscribed, and the
    browser after its construction. *)
Definition toggle_t : Setting Z :=
  addListener 7 (new_Setting platform_Z "t" (VBoolean false) toggle_validator browser0).1.

Definition browser_t : Browser Z :=
  (new_Setting platform_Z "t" (VBoolean false) toggle_validator browser0).2.


(** ** Load callbacks: [subscribeToLoad] of [src/modules/observer.ts]

    The part of the observer module that [subscribeToLoad] touches: the
    list of deletion entries, the run-once latch of the module, and the three
    variables of lines 150-152.  What [init] sets up (the MutationObserver)
    is kept only as the fact that it has run.  Load callbacks are named by a
    number; a callback reports that it was called, may throw, and does not
    call back into the module. *)

Inductive ObserverCallback :=
| LoadHandler
| OtherCallback (id : nat).

Record Observer := {
  _entriesDeletion : list (string * ObserverCallback);
  (** [_initOnce] of the observer module, and whether its [init] has run *)
  observer_initOnce : Once;
  observing : bool;
  loadCallbacks : list nat;
  loadInitialized : bool;
  loadedOnce : bool
}.

Definition observer0 : Observer :=
  {| _entriesDeletion := []; observer_initOnce := {| once_triggered := false |};
     observing := false; loadCallbacks := []; loadInitialized := false;
     loadedOnce := false |}.

Definition loading_screen : string := ".lol-loading-screen-container".

(** Modelled from the spec: [Once.trigger()] of [src/utils/once], applied to
    the [_initOnce] of the observer module. *)
Definition observer_trigger (o : Observer) : Observer :=
  if once_triggered (observer_initOnce o) then o
  else
    {| _entriesDeletion := _entriesDeletion o;
       observer_initOnce := {| once_triggered := true |}; observing := true;
       loadCallbacks := loadCallbacks o; loadInitialized := loadInitialized o;
       loadedOnce := loadedOnce o |}.

Definition subscribeToElementDeletion (selector : string) (callback : ObserverCallback)
    (o : Observer) : Observer :=
  let o := observer_trigger o in
  {| _entriesDeletion := _entriesDeletion o ++ [(selector, callback)];
     observer_initOnce := observer_initOnce o; observing := observing o;
     loadCallbacks := loadCallbacks o; loadInitialized := loadInitialized o;
     loadedOnce := loadedOnce o |}.

Definition subscribeToLoad (callback : nat) (o : Observer) : Observer :=
  let o :=
    if negb (loadInitialized o) then
      subscribeToElementDeletion loading_screen LoadHandler
        {| _entriesDeletion := _entriesDeletion o;
           observer_initOnce := observer_initOnce o; observing := observing o;
           loadCallbacks := loadCallbacks o; loadInitialized := true;
           loadedOnce := loadedOnce o |}
    else o in
  {| _entriesDeletion := _entriesDeletion o;
     observer_initOnce := observer_initOnce o; observing := observing o;
     loadCallbacks := loadCallbacks o ++ [callback]; loadInitialized := loadInitialized o;
     loadedOnce := loadedOnce o |}.

(** [for (let callback of loadCallbacks) callback()]: the calls made, and
    whether the loop was left by a throw. *)
Fixpoint call_load_callbacks (throws : nat -> bool) (callbacks : list nat)
    (called : list nat) : Completion * list nat :=
  match callbacks with
  | [] => (Normal, called)
  | callback :: callbacks =>
      if throws callback
      then (Throw (OtherError "load callback"), called ++ [callback])
      else call_load_callbacks throws callbacks (called ++ [callback])
  end.

(** The deletion callback of lines 162-171. *)
Definition load_handler (throws : nat -> bool) (o : Observer) (called : list nat)
    : Completion * Observer * list nat :=
  if loadedOnce o then (Normal, o, called)
  else
    let o := {| _entriesDeletion := _entriesDeletion o;
                observer_initOnce := observer_initOnce o; observing := observing o;
                loadCallbacks := loadCallbacks o; loadInitialized := loadInitialized o;
                loadedOnce := true |} in
    let '(c, called) := call_load_callbacks throws (loadCallbacks o) called in
    (c, o, called).

(** The loading screen is removed: the loop of lines 63-71 over the
    deletion entries, for an element that matches [loading_screen] and no
    other selector registered; what a callback throws is caught there. *)
Definition screen_removed (throws : nat -> bool) (o : Observer) (called : list nat)
    : Observer * list nat :=
  fold_left
    (fun st entry =>
       match entry with
       | (selector, LoadHandler) =>
           if String.eqb selector loading_screen
           then let '(_, o, called) := load_handler throws st.1 st.2 in (o, called)
           else st
       | (_, OtherCallback _) => st
       end)
    (_entriesDeletion o) (o, called).

Inductive LoadEvent :=
| Subscribe (callback : nat)
| ScreenRemoved.

Definition load_step (throws : nat -> bool) (st : Observer * list nat) (ev : LoadEvent)
    : Observer * list nat :=
  match ev with
  | Subscribe callback => (subscribeToLoad callback st.1, st.2)
  | ScreenRemoved => screen_removed throws st.1 st.2
  end.

Definition load_run (throws : nat -> bool) (events : list LoadEvent) : Observer * list nat :=
  fold_left (load_step throws) events (observer0, []).

(** The callbacks up to the first that throws, that one included. *)
Fixpoint until_throw (throws : nat -> bool) (callbacks : list nat) : list nat :=
  match callbacks with
  | [] => []
  | callback :: callbacks =>
      if throws callback then [callback] else callback :: until_throw throws callbacks
  end.

(** The callbacks a sequence of events gets called: those subscribed before
    the first removal of the loading screen that follows a subscription, up
    to the first that throws. *)
Fixpoint load_calls (throws : nat -> bool) (events : list LoadEvent) (subscribed : list nat)
    : list nat :=
  match events with
  | [] => []
  | Subscribe callback :: events => load_calls throws events (subscribed ++ [callback])
  | ScreenRemoved :: events =>
      match subscribed with
      | [] => load_calls throws events []
      | _ => until_throw throws subscribed
      end
  end.

(** The module while the loading screen is still there, and after the
    handler has fired. *)
Definition waiting (subscribed : list nat) (o : Observer) : Prop :=
  loadedOnce o = false ∧ loadCallbacks o = subscribed ∧
  match subscribed with
  | [] => loadInitialized o = false ∧ _entriesDeletion o = []
  | _ => loadInitialized o = true ∧ _entriesDeletion o = [(loading_screen, LoadHandler)]
  end.

Definition fired (o : Observer) : Prop :=
  loadedOnce o = true ∧ loadInitialized o = true ∧
  _entriesDeletion o = [(loading_screen, LoadHandler)].

Definition is_Subscribe (ev : LoadEvent) : bool :=
  match ev with
  | Subscribe _ => true
  | ScreenRemoved => false
  end.

(** Callback 2 throws. *)
Definition second_throws : nat -> bool := fun callback => Nat.eqb callback 2.

(** * Properties *)

(** ** The run-once latch *)

Lemma trigger_tables h :
  _entriesText (_initOnce_trigger h) = _entriesText h ∧
  _entriesRegex (_initOnce_trigger h) = _entriesRegex h.
Proof. unfold _initOnce_trigger. by destruct (once_triggered (_initOnce h)). Qed.

Lemma trigger_closed h : once_triggered (_initOnce (_initOnce_trigger h)) = true.
Proof.
  unfold _initOnce_trigger.
  by destruct (once_triggered (_initOnce h)) eqn:E.
Qed.

Lemma trigger_again h :
  once_triggered (_initOnce h) = true → _initOnce_trigger h = h.
Proof. unfold _initOnce_trigger. by intros ->. Qed.

Lemma hookPre_latch endpoint callback h :
  latch (hookPre endpoint callback h).2 = latch (_initOnce_trigger h).
Proof.
  unfold hookPre. destruct endpoint as [s|r|t]; simpl.
  - by destruct (_entriesText (_initOnce_trigger h) !! s).
  - by destruct (list_find _ _) as [[i x]|].
  - done.
Qed.

Lemma hookPost_latch endpoint callback h :
  latch (hookPost endpoint callback h).2 = latch (_initOnce_trigger h).
Proof.
  unfold hookPost. destruct endpoint as [s|r|t]; simpl.
  - by destruct (_entriesText (_initOnce_trigger h) !! s).
  - by destruct (list_find _ _) as [[i x]|].
  - done.
Qed.

Lemma call_latch r h : latch (call r h).2 = latch (_initOnce_trigger h).
Proof.
  destruct r; simpl; unfold hookTextPre, hookTextPost;
    auto using hookPre_latch, hookPost_latch.
Qed.

Lemma latch_closed_stays rs h :
  once_triggered (_initOnce h) = true → latch (after rs h) = latch h.
Proof.
  revert h. induction rs as [|r rs IH]; intros h Hh; [done|].
  simpl. rewrite IH.
  - rewrite call_latch. by rewrite trigger_again.
  - pose proof (call_latch r h) as G. unfold latch in G.
    injection G as -> _ _. apply trigger_closed.
Qed.

Lemma after_first_latch r rs :
  latch (after (r :: rs) loaded) = ({| once_triggered := true |}, HookedFetch, 1).
Proof.
  simpl. rewrite latch_closed_stays.
  - by rewrite call_latch.
  - pose proof (call_latch r loaded) as G. unfold latch in G.
    injection G as -> _ _. done.
Qed.

(** C7: from the freshly loaded module, after one or more calls of the
    registration functions, in any order and whatever their arguments, the
    assignment [window.fetch = hookedFetch] has been executed exactly once
    and the hooked implementation is in place; before the first call it has
    not been executed, and one more call after the first does not execute it
    again. *)
Theorem installed_exactly_once (r : Registration) (rs : list Registration) (r' : Registration) :
  fetch_assignments loaded = 0 ∧
  window_fetch loaded = OriginalFetch ∧
  fetch_assignments (after (r :: rs) loaded) = 1 ∧
  window_fetch (after (r :: rs) loaded) = HookedFetch ∧
  fetch_assignments (call r' (after (r :: rs) loaded)).2 = 1 ∧
  window_fetch (call r' (after (r :: rs) loaded)).2 = HookedFetch.
Proof.
  pose proof (after_first_latch r rs) as G.
  pose proof (after_first_latch r (rs ++ [r'])) as G'.
  unfold after in G'. rewrite app_comm_cons, fold_left_app in G'. simpl in G'.
  unfold latch in G, G'. simpl in G.
  injection G as _ G2 G3. injection G' as _ G2' G3'.
  repeat split; done.
Qed.

Lemma after_nonempty_latch rs :
  rs ≠ [] → latch (after rs loaded) = ({| once_triggered := true |}, HookedFetch, 1).
Proof. destruct rs as [|r rs]; [done|]. intros _. apply after_first_latch. Qed.

(** C10: in every state the module can reach by registrations, [hookPre]
    and [hookPost] called with an endpoint that is neither a string nor a
    RegExp throw the TypeError, after the latch has been triggered: the state
    left behind has the hooked implementation installed (by this call when
    it is the first registration), and both tables are as before the call. *)
Theorem invalid_endpoint_throws_after_trigger (rs : list Registration) (typeof : string)
    (pre : HookPreCallback) (post : HookPostCallback) :
  let h := after rs loaded in
  hookPre (EndpointOther typeof) pre h
    = (Throw (TypeError "Invalid endpoint type!"), _initOnce_trigger h) ∧
  hookPost (EndpointOther typeof) post h
    = (Throw (TypeError "Invalid endpoint type!"), _initOnce_trigger h) ∧
  once_triggered (_initOnce (_initOnce_trigger h)) = true ∧
  window_fetch (_initOnce_trigger h) = HookedFetch ∧
  fetch_assignments (_initOnce_trigger h) = 1 ∧
  _entriesText (_initOnce_trigger h) = _entriesText h ∧
  _entriesRegex (_initOnce_trigger h) = _entriesRegex h.
Proof.
  intros h.
  assert (G : latch (_initOnce_trigger h) = ({| once_triggered := true |}, HookedFetch, 1)).
  { rewrite <- (call_latch (CallHookPre (EndpointOther typeof) pre) h).
    change (latch (after [CallHookPre (EndpointOther typeof) pre] (after rs loaded)) = ({| once_triggered := true |}, HookedFetch, 1)).
    unfold after. rewrite <- fold_left_app.
    apply after_nonempty_latch. by destruct rs. }
  unfold latch in G. injection G as G1 G2 G3.
  destruct (trigger_tables h) as [T1 T2].
  repeat split; try done. by rewrite G1.
Qed.

(** ** Resolution *)

Lemma find_scan url l :
  match List.find (fun x : RegExp * HookEntry => re_test (fst x) url) l with
  | Some regexMatch => Some (snd regexMatch)
  | None => None
  end = scan_patterns url l.
Proof.
  induction l as [|x l IH]; [done|].
  simpl. by destruct (re_test x.1 url).
Qed.

Lemma scan_patterns_None url l :
  scan_patterns url l = None ↔ Forall (λ x, re_test x.1 url = false) l.
Proof.
  induction l as [|x l IH]; simpl.
  - split; [constructor|done].
  - destruct (re_test x.1 url) eqn:E.
    + split; [done|]. intros H. inversion H; congruence.
    + rewrite IH. split; [by constructor|]. by inversion 1.
Qed.

Lemma scan_patterns_Some url l e :
  scan_patterns url l = Some e ↔
  ∃ before x behind, l = before ++ x :: behind ∧
    Forall (λ y, re_test y.1 url = false) before ∧ re_test x.1 url = true ∧ e = x.2.
Proof.
  induction l as [|x l IH]; simpl.
  - split; [done|]. intros (before & y & behind & H & _). by destruct before.
  - destruct (re_test x.1 url) eqn:E.
    + split.
      * intros [= <-]. exists [], x, l. repeat split; [constructor|done].
      * intros (before & y & behind & H & Hb & Hy & ->).
        destruct before as [|b before]; simpl in H.
        -- by injection H as -> _.
        -- injection H as -> _. inversion Hb; congruence.
    + rewrite IH. split.
      * intros (before & y & behind & -> & Hb & Hy & ->).
        exists (x :: before), y, behind. repeat split; [by constructor|done].
      * intros (before & y & behind & H & Hb & Hy & ->).
        destruct before as [|b before]; simpl in H.
        -- injection H as -> _. congruence.
        -- injection H as -> ->. inversion Hb; subst.
           exists before, y, behind. done.
Qed.

(** ** The tables *)

Lemma push_pre_add callback entry :
  push_pre callback entry = add_callbacks [callback] [] entry.
Proof. unfold push_pre, add_callbacks. by rewrite app_nil_r. Qed.

Lemma push_post_add callback entry :
  push_post callback entry = add_callbacks [] [callback] entry.
Proof. unfold push_post, add_callbacks. by rewrite app_nil_r. Qed.

(** One registration, on the string table. *)
Lemma call_text r h :
  _entriesText (call r h).2 =
  match reg_endpoint r with
  | EndpointString s =>
      <[s := add_callbacks (reg_pre r) (reg_post r)
               (default empty_entry (_entriesText h !! s))]> (_entriesText h)
  | _ => _entriesText h
  end.
Proof.
  destruct (trigger_tables h) as [T1 T2].
  destruct r as [e cb|e cb|e cb|e cb]; simpl;
    unfold hookTextPre, hookTextPost, hookPre, hookPost;
    destruct e as [s|re|t]; simpl; rewrite ?T1, ?T2; try done;
    try (destruct (_entriesText h !! s); simpl;
         by rewrite ?T1, ?push_pre_add, ?push_post_add);
    by destruct (list_find _ _) as [[i x]|].
Qed.

(** One registration, on the pattern array. *)
Lemma call_regex r h :
  _entriesRegex (call r h).2 =
  match reg_endpoint r with
  | EndpointRegExp re =>
      match list_find (λ x, re_toString x.1 = re_toString re) (_entriesRegex h) with
      | None => _entriesRegex h ++ [(re, add_callbacks (reg_pre r) (reg_post r) empty_entry)]
      | Some (i, x) =>
          <[i := (x.1, add_callbacks (reg_pre r) (reg_post r) x.2)]> (_entriesRegex h)
      end
  | _ => _entriesRegex h
  end.
Proof.
  destruct (trigger_tables h) as [T1 T2].
  destruct r as [e cb|e cb|e cb|e cb]; simpl;
    unfold hookTextPre, hookTextPost, hookPre, hookPost;
    destruct e as [s|re|t]; simpl; rewrite ?T1, ?T2; try done;
    try (by destruct (_entriesText h !! s));
    destruct (list_find _ _) as [[i x]|]; simpl;
    by rewrite ?T2, ?push_pre_add, ?push_post_add.
Qed.

Lemma after_snoc rs r h : after (rs ++ [r]) h = (call r (after rs h)).2.
Proof. unfold after. by rewrite fold_left_app. Qed.

Lemma patterns_snoc rs r : patterns (rs ++ [r]) = note_pattern (patterns rs) r.
Proof. unfold patterns. by rewrite fold_left_app. Qed.

Lemma registered_snoc k rs r :
  registered k (rs ++ [r]) ↔ registered k rs ∨ matcher (reg_endpoint r) = Some k.
Proof.
  unfold registered. rewrite Exists_app, Exists_cons, Exists_nil. tauto.
Qed.

Lemma entry_for_snoc k rs r :
  entry_for k (rs ++ [r]) =
  if decide (matcher (reg_endpoint r) = Some k)
  then add_callbacks (reg_pre r) (reg_post r) (entry_for k rs)
  else entry_for k rs.
Proof.
  unfold entry_for, pres_for, posts_for, add_callbacks.
  rewrite !flat_map_app. simpl.
  destruct (decide (matcher (reg_endpoint r) = Some k)); simpl; by rewrite !app_nil_r.
Qed.

Lemma entry_for_unregistered k rs : ¬ registered k rs → entry_for k rs = empty_entry.
Proof.
  unfold registered, entry_for, pres_for, posts_for, empty_entry.
  induction rs as [|r rs IH]; intros H; [done|].
  rewrite Exists_cons in H. simpl.
  destruct (decide (matcher (reg_endpoint r) = Some k)); [tauto|].
  simpl. apply IH. tauto.
Qed.

(** The tables after any sequence of registrations are the ones the
    sequence asks for. *)
Lemma tables_after rs :
  (∀ s, _entriesText (after rs loaded) !! s =
        if decide (registered (inl s) rs) then Some (entry_for (inl s) rs) else None) ∧
  _entriesRegex (after rs loaded) =
    map (λ re, (re, entry_for (inr (re_toString re)) rs)) (patterns rs) ∧
  NoDup (map re_toString (patterns rs)) ∧
  (∀ src, registered (inr src) rs ↔ src ∈ map re_toString (patterns rs)).
Proof.
  induction rs as [|r rs (IHt & IHr & IHn & IHm)] using rev_ind.
  - split; [|split; [|split]].
    + intros s. simpl. rewrite lookup_empty.
      destruct (decide (registered (inl s) [])) as [H|]; [|done].
      by apply Exists_nil in H.
    + done.
    + constructor.
    + intros src. split.
      * intros H. by apply Exists_nil in H.
      * simpl. by intros H%elem_of_nil.
  - rewrite after_snoc, patterns_snoc.
    split; [|split; [|split]].
    + (* the string table *)
      intros s. rewrite call_text.
      assert (Hother : matcher (reg_endpoint r) ≠ Some (inl s) →
                _entriesText (after rs loaded) !! s =
                if decide (registered (inl s) (rs ++ [r]))
                then Some (entry_for (inl s) (rs ++ [r])) else None).
      { intros Hne. rewrite IHt, entry_for_snoc.
        destruct (decide (matcher (reg_endpoint r) = Some (inl s))); [done|].
        destruct (decide (registered (inl s) rs)) as [H|H];
          destruct (decide (registered (inl s) (rs ++ [r]))) as [H'|H']; try done.
        - exfalso. apply H'. apply registered_snoc. by left.
        - apply registered_snoc in H'. tauto. }
      destruct (reg_endpoint r) as [s0|re|t] eqn:E; simpl in Hother;
        [|by apply Hother..].
      destruct (decide (s0 = s)) as [->|Hne].
      * rewrite lookup_insert_eq, entry_for_snoc, E. simpl.
        destruct (decide (Some (inl s) = Some (inl s))) as [_|]; [|done].
        destruct (decide (registered (inl s) (rs ++ [r]))) as [_|H'].
        -- rewrite IHt.
           destruct (decide (registered (inl s) rs)) as [H|H]; simpl; [done|].
           by rewrite (entry_for_unregistered _ _ H).
        -- exfalso. apply H'. apply registered_snoc. right. by rewrite E.
      * rewrite lookup_insert_ne by done. apply Hother. congruence.
    + (* the pattern array *)
      rewrite call_regex. unfold note_pattern.
      destruct (reg_endpoint r) as [s0|re|t] eqn:E.
      * rewrite IHr. apply map_ext. intros re'. rewrite entry_for_snoc, E. simpl.
        by try case_decide.
      * destruct (list_find _ _) as [[i x]|] eqn:F.
        -- apply list_find_Some in F as (Hi & Hx & _).
           rewrite IHr in Hi. rewrite list_lookup_fmap in Hi.
           destruct (patterns rs !! i) as [rei|] eqn:Hrei; [|done].
           injection Hi as <-. simpl in Hx.
           assert (Hin : re_toString re ∈ map re_toString (patterns rs)).
           { rewrite <- Hx. apply list_elem_of_fmap. exists rei.
             split; [done|]. by eapply list_elem_of_lookup_2. }
           destruct (decide (re_toString re ∈ map re_toString (patterns rs))); [|done].
           apply list_eq. intros j. rewrite list_lookup_fmap.
           destruct (decide (i = j)) as [<-|Hij].
           ++ rewrite list_lookup_insert_eq.
              ** rewrite Hrei. simpl. rewrite entry_for_snoc, E. simpl.
                 rewrite Hx. by try case_decide.
              ** rewrite IHr, length_map. by eapply lookup_lt_Some.
           ++ rewrite list_lookup_insert_ne by done.
              rewrite IHr, list_lookup_fmap.
              destruct (patterns rs !! j) as [rej|] eqn:Hrej; [|done].
              simpl. rewrite entry_for_snoc, E. simpl.
              case_decide as Heq; [|done].
              exfalso. apply Hij.
              injection Heq as Heq.
              eapply (NoDup_lookup _ i j (re_toString re) IHn).
              ** by rewrite list_lookup_fmap, Hrei, <- Hx.
              ** by rewrite list_lookup_fmap, Hrej, Heq.
        -- apply list_find_None in F.
           assert (Hnin : re_toString re ∉ map re_toString (patterns rs)).
           { intros (re' & Heq & Hin)%list_elem_of_fmap.
             rewrite Forall_forall in F.
             apply (F (re', entry_for (inr (re_toString re')) rs)); [|done].
             rewrite IHr. apply list_elem_of_fmap. by exists re'. }
           destruct (decide (re_toString re ∈ map re_toString (patterns rs))); [done|].
           rewrite map_app. simpl. f_equal.
           ++ rewrite IHr. apply map_ext_in. intros re' Hin.
              rewrite entry_for_snoc, E. simpl.
              case_decide as Heq; [|done].
              exfalso. apply Hnin. injection Heq as ->.
              apply list_elem_of_fmap. exists re'. split; [done|].
              by apply list_elem_of_In.
           ++ rewrite entry_for_snoc, E. simpl.
              case_decide; [|done].
              rewrite (entry_for_unregistered (inr (re_toString re)) rs); [done|].
              by rewrite IHm.
      * rewrite IHr. apply map_ext. intros re'. rewrite entry_for_snoc, E. simpl.
        by try case_decide.
    + (* one pair per source *)
      unfold note_pattern. destruct (reg_endpoint r) as [s0|re|t]; try done.
      case_decide as Hnin; [done|].
      rewrite map_app. simpl. apply NoDup_app. split; [done|]. split.
      * intros x Hx ->%list_elem_of_singleton. done.
      * apply NoDup_singleton.
    + (* a pair for every source registered *)
      intros src. rewrite registered_snoc, IHm. unfold note_pattern.
      destruct (reg_endpoint r) as [s0|re|t]; simpl.
      * split; [intros [?|?]; [done|congruence]|by left].
      * case_decide as Hin.
        -- split; [intros [?|[= <-]]; done|by left].
        -- rewrite map_app. simpl. rewrite elem_of_app, list_elem_of_singleton.
           split; intros [?|H]; try (by left); right; congruence.
      * split; [intros [?|?]; [done|congruence]|by left].
Qed.

(** C8: after any sequence of registrations from the loaded module, the
    string table holds, for each exact string, one entry exactly when that
    string has been registered; the pattern array holds one pair per distinct
    printed source, no two pairs printing alike, in the order in which the
    sources were first registered; and every entry lists exactly the
    callbacks registered for its matcher, in registration order: a later
    registration for the same matcher has been appended to the entry, not
    stored in a second one. *)
Theorem one_entry_per_matcher (rs : list Registration) :
  (∀ s, _entriesText (after rs loaded) !! s =
        if decide (registered (inl s) rs) then Some (entry_for (inl s) rs) else None) ∧
  NoDup (map (λ x, re_toString x.1) (_entriesRegex (after rs loaded))) ∧
  _entriesRegex (after rs loaded) =
    map (λ re, (re, entry_for (inr (re_toString re)) rs)) (patterns rs) ∧
  (∀ k r, entry_for k (rs ++ [r]) =
          if decide (matcher (reg_endpoint r) = Some k)
          then {| pre_callback := pre_callback (entry_for k rs) ++ reg_pre r;
                  post_callback := post_callback (entry_for k rs) ++ reg_post r |}
          else entry_for k rs).
Proof.
  destruct (tables_after rs) as (Ht & Hr & Hn & Hm).
  split; [done|]. split; [|split; [done|]].
  - rewrite Hr, map_map. simpl. done.
  - intros k r. apply entry_for_snoc.
Qed.

Lemma find_map_entries (f : RegExp → HookEntry) url (l : list RegExp) :
  scan_patterns url (map (λ re, (re, f re)) l)
  = f <$> List.find (λ re, re_test re url) l.
Proof.
  induction l as [|re l IH]; [done|].
  simpl. by destruct (re_test re url).
Qed.

(** C9: [findMatchingEntry] is the resolution the spec describes: the entry
    of the exact string when there is one; otherwise the entry of the first
    pattern, in the order of the pattern array, that matches the URL; and
    none exactly when there is no exact entry and no pattern matches.  The
    order of the array is the order of registration: after the registrations
    [rs], resolution gives the entry of the exact string if it was
    registered, and otherwise the entry of the first-registered pattern that
    matches. *)
Theorem findMatchingEntry_resolve (h : Hooks) (url : string) (rs : list Registration) :
  findMatchingEntry h url = resolve h url ∧
  match _entriesText h !! url with
  | Some exactMatch => findMatchingEntry h url = Some exactMatch
  | None =>
      match findMatchingEntry h url with
      | Some entry =>
          ∃ before x behind, _entriesRegex h = before ++ x :: behind ∧
            Forall (λ y, re_test y.1 url = false) before ∧
            re_test x.1 url = true ∧ entry = x.2
      | None => Forall (λ y, re_test y.1 url = false) (_entriesRegex h)
      end
  end ∧
  (findMatchingEntry h url = None ↔
   _entriesText h !! url = None ∧
   Forall (λ y, re_test y.1 url = false) (_entriesRegex h)) ∧
  findMatchingEntry (after rs loaded) url =
    (if decide (registered (inl url) rs) then Some (entry_for (inl url) rs)
     else (λ re, entry_for (inr (re_toString re)) rs)
            <$> List.find (λ re, re_test re url) (patterns rs)).
Proof.
  split; [|split; [|split]].
  - unfold findMatchingEntry, resolve. by rewrite find_scan.
  - unfold findMatchingEntry. rewrite find_scan.
    destruct (_entriesText h !! url) as [e|] eqn:E; [done|].
    destruct (scan_patterns url (_entriesRegex h)) as [e|] eqn:S.
    + by apply scan_patterns_Some.
    + by apply scan_patterns_None.
  - unfold findMatchingEntry. rewrite find_scan.
    destruct (_entriesText h !! url) as [e|] eqn:E.
    + split; [done|]. by intros [? _].
    + rewrite scan_patterns_None. split; [by intros ?|by intros [_ ?]].
  - destruct (tables_after rs) as (Ht & Hr & _ & _).
    unfold findMatchingEntry. rewrite find_scan, Ht, Hr.
    case_decide; [done|]. apply find_map_entries.
Qed.

(** ** The pre-callback chain *)

Section PipelineFacts.

Variable transport : list Call -> Call -> Outcome Payload.

Lemma _originalFetch_calls input init w :
  w_calls (_originalFetch transport input init w).2 = w_calls w ++ [(input, init)].
Proof. unfold _originalFetch. by destruct (transport _ _). Qed.

Lemma _originalFetch_console input init w :
  w_console (_originalFetch transport input init w).2 = w_console w.
Proof. unfold _originalFetch. by destruct (transport _ _). Qed.

Lemma console_errors_nil w : console_errors [] w = w.
Proof. destruct w. unfold console_errors. simpl. by rewrite app_nil_r. Qed.

Lemma console_errors_cons msg msgs w :
  console_errors (msg :: msgs) w = console_errors msgs (console_error msg w).
Proof. unfold console_errors, console_error. simpl. by rewrite <- app_assoc. Qed.

(** A rejected or pending promise goes through the [then] links as it is:
    no callback runs. *)
Lemma pre_chain_unresolved callbacks o input init w :
  (∀ r, o ≠ Resolved r) →
  pre_chain transport callbacks o input init w = (o, input, init, w).
Proof.
  intros H. induction callbacks as [|c cs IH]; [done|].
  simpl. destruct o; [by destruct (H a)|done..].
Qed.

Lemma run_pre_never s input init w :
  never_invokes s →
  run_pre transport s input init w
    = (settles s, input, init, console_errors (writes s) w).
Proof.
  revert w. induction s as [o|msg k IH|i n k IH]; intros w H; simpl in *.
  - by rewrite console_errors_nil.
  - by rewrite IH, console_errors_cons.
  - done.
Qed.

Lemma run_pre_once s c input init w :
  invokes_once s → the_call s = Some c →
  ∃ o w', run_pre transport s input init w = (o, c.1, c.2, w') ∧
          w_calls w' = w_calls w ++ [c].
Proof.
  revert w. induction s as [o|msg k IH|i n k IH]; intros w H Hc; simpl in *.
  - done.
  - destruct (IH (console_error msg w) H Hc) as (o & w' & -> & Hw). eauto.
  - injection Hc as <-. simpl.
    destruct (_originalFetch transport i n w) as [o w1] eqn:E.
    rewrite run_pre_never by apply H.
    eexists _, _. split; [done|]. simpl.
    pose proof (_originalFetch_calls i n w) as P. by rewrite E in P.
Qed.

End PipelineFacts.

(** C1, as the code has it: a first pre-callback that never invokes its
    continuation makes no transport call of its own, and the callbacks after
    it are not skipped: the chain goes on with them from the way the first
    callback's promise settles, with the request unchanged.  Only when that
    promise is rejected or never settles do the later callbacks not run, and
    then the chain makes no transport call at all. *)
Theorem silent_pre_callback (transport : list Call -> Call -> Outcome Payload)
    (A : HookPreCallback) (rest : list HookPreCallback) (r0 : Response)
    (input : FetchInput) (init : option RequestInit) (w : World) :
  never_invokes (A input init) →
  let w' := console_errors (writes (A input init)) w in
  run_pre transport (A input init) input init w = (settles (A input init), input, init, w') ∧
  w_calls w' = w_calls w ∧
  pre_chain transport (A :: rest) (Resolved r0) input init w
    = pre_chain transport rest (settles (A input init)) input init w' ∧
  ((∀ r, settles (A input init) ≠ Resolved r) →
   pre_chain transport (A :: rest) (Resolved r0) input init w
     = (settles (A input init), input, init, w')).
Proof.
  intros H w'.
  assert (E := run_pre_never transport _ input init w H). fold w' in E.
  split; [done|]. split; [done|].
  assert (C : pre_chain transport (A :: rest) (Resolved r0) input init w
              = pre_chain transport rest (settles (A input init)) input init w').
  { simpl. by rewrite E. }
  split; [done|].
  intros Hn. rewrite C. by apply pre_chain_unresolved.
Qed.

(** The chain [mock; pass_through]: after [mock], which calls nothing, the
    chain goes on with [pass_through]. *)
Lemma silent_pre_callback_witness :
  never_invokes (mock (InputString "/foo") None) ∧
  pre_chain transport_ok [mock; pass_through] (Resolved response_ok)
    (InputString "/foo") None world0
  = pre_chain transport_ok [pass_through] (settles (mock (InputString "/foo") None))
      (InputString "/foo") None
      (console_errors (writes (mock (InputString "/foo") None)) world0).
Proof.
  split; [exact I|].
  exact (proj1 (proj2 (proj2 (silent_pre_callback transport_ok mock [pass_through]
                         response_ok (InputString "/foo") None world0 I)))).
Defined.

(** C1 as stated fails: with [mock], which never calls its continuation,
    registered first and [with_method "B"] second, the transport is called
    with the request as it came in (before any callback has run), and the
    second callback runs and calls the transport as well. *)
Lemma later_callback_and_transport_invoked :
  let h := after [CallHookPre (EndpointString "/foo") mock;
                  CallHookPre (EndpointString "/foo") (with_method "B")] loaded in
  findMatchingEntry h "/foo"
    = Some {| pre_callback := [mock; with_method "B"]; post_callback := [] |} ∧
  (∀ input init, never_invokes (mock input init)) ∧
  w_calls (hookedFetch transport_ok h (InputString "/foo") None world0).2
    = [(InputString "/foo", None);
       (InputString "/foo", Some (set_method "B" empty_init))] ∧
  w_calls (hookedFetch transport_ok h (InputString "/foo") None world0).2 ≠ [].
Proof.
  split; [by vm_compute|]. split; [by intros|]. split; [by vm_compute|].
  by vm_compute.
Qed.

(** C2, as the code has it: when A and B each invoke their continuation
    exactly once, A's call reaches the transport with the request as A
    passes it; B then runs on that request, provided A's promise is
    fulfilled, and B's call reaches the transport with the request as B
    passes it.  These are the calls the two callbacks cause, in that order,
    and the request the function is left with is the last one passed.  When
    A's promise is rejected or never settles, B does not run. *)
Theorem two_pre_callbacks_in_order (transport : list Call -> Call -> Outcome Payload)
    (A B : HookPreCallback) (r0 : Response)
    (input : FetchInput) (init : option RequestInit) (w : World) (cA cB : Call) :
  invokes_once (A input init) → the_call (A input init) = Some cA →
  invokes_once (B cA.1 cA.2) → the_call (B cA.1 cA.2) = Some cB →
  ∃ oA wA,
    run_pre transport (A input init) input init w = (oA, cA.1, cA.2, wA) ∧
    w_calls wA = w_calls w ++ [cA] ∧
    ((∀ r, oA ≠ Resolved r) →
     pre_chain transport [A; B] (Resolved r0) input init w = (oA, cA.1, cA.2, wA)) ∧
    (∀ r, oA = Resolved r →
     ∃ oB wB,
       pre_chain transport [A; B] (Resolved r0) input init w = (oB, cB.1, cB.2, wB) ∧
       w_calls wB = w_calls w ++ [cA; cB]).
Proof.
  intros HA HcA HB HcB.
  destruct (run_pre_once transport _ cA input init w HA HcA) as (oA & wA & EA & HwA).
  exists oA, wA. split; [done|]. split; [done|]. split.
  - intros Hn. simpl. rewrite EA. destruct oA; [by destruct (Hn a)|done..].
  - intros r ->.
    destruct (run_pre_once transport _ cB cA.1 cA.2 wA HB HcB) as (oB & wB & EB & HwB).
    exists oB, wB. simpl. rewrite EA, EB. split; [done|].
    rewrite HwB, HwA. by rewrite <- app_assoc.
Qed.

(** The chain [with_method "POST"; with_body "x"] on a request for ["/foo"]:
    the callbacks send the POST, then the POST with the body. *)
Lemma two_pre_callbacks_in_order_witness :
  invokes_once (with_method "POST" (InputString "/foo") None) ∧
  the_call (with_method "POST" (InputString "/foo") None)
    = Some (InputString "/foo", Some (set_method "POST" empty_init)) ∧
  invokes_once (with_body "x" (InputString "/foo") (Some (set_method "POST" empty_init))) ∧
  the_call (with_body "x" (InputString "/foo") (Some (set_method "POST" empty_init)))
    = Some (InputString "/foo",
            Some (set_body (BodyString "x") (set_method "POST" empty_init))) ∧
  ∃ oB wB,
    pre_chain transport_ok [with_method "POST"; with_body "x"] (Resolved response_ok)
      (InputString "/foo") None world0
    = (oB, InputString "/foo",
       Some (set_body (BodyString "x") (set_method "POST" empty_init)), wB) ∧
    w_calls wB
    = [(InputString "/foo", Some (set_method "POST" empty_init));
       (InputString "/foo",
        Some (set_body (BodyString "x") (set_method "POST" empty_init)))].
Proof.
  split; [intros o; exact I|]. split; [reflexivity|].
  split; [intros o; exact I|]. split; [reflexivity|].
  destruct (two_pre_callbacks_in_order transport_ok (with_method "POST") (with_body "x")
              response_ok (InputString "/foo") None world0
              (InputString "/foo", Some (set_method "POST" empty_init))
              (InputString "/foo",
               Some (set_body (BodyString "x") (set_method "POST" empty_init)))
              (fun _ => I) eq_refl (fun _ => I) eq_refl)
    as (oA & wA & E & _ & _ & Hres).
  vm_compute in E. injection E as E _.
  exact (Hres _ (eq_sym E)).
Defined.

(** C2 as stated fails: with [with_method "POST"] registered first and
    [with_body "x"] second, each calling its continuation once, a request for
    ["/foo"] reaches the transport three times: as it came in, as the first
    callback passed it, and as the second passed it. *)
Lemma transport_observes_three_requests :
  let h := after [CallHookPre (EndpointString "/foo") (with_method "POST");
                  CallHookPre (EndpointString "/foo") (with_body "x")] loaded in
  (∀ input init, invokes_once (with_method "POST" input init)) ∧
  (∀ input init, invokes_once (with_body "x" input init)) ∧
  w_calls (hookedFetch transport_ok h (InputString "/foo") None world0).2
    = [(InputString "/foo", None);
       (InputString "/foo", Some (set_method "POST" empty_init));
       (InputString "/foo", Some (set_body (BodyString "x") (set_method "POST" empty_init)))] ∧
  w_calls (hookedFetch transport_ok h (InputString "/foo") None world0).2
    ≠ [(InputString "/foo", Some (set_body (BodyString "x") (set_method "POST" empty_init)))].
Proof.
  split; [by intros ? ? ?|]. split; [by intros ? ? ?|].
  split; [by vm_compute|]. by vm_compute.
Qed.

(** ** The text adapters *)

(** C6, as the code has it: when the body is present and not a string, the
    pre-callback of [hookTextPre] does not reject by itself and does not run
    the text callback: it writes an error to the console, calls its
    continuation with the request unchanged, and settles as the promise of
    that call does. *)
Theorem text_pre_non_string_body (transport : list Call -> Call -> Outcome Payload)
    (callback : HookTextPreCallback) (input : FetchInput) (i : RequestInit)
    (kind : string) (w : World) :
  init_body i = Some (BodyOther kind) →
  textPre_callback callback input (Some i)
    = PreConsoleError not_a_string (PreOriginal input (Some i) PreSettle) ∧
  run_pre transport (textPre_callback callback input (Some i)) input (Some i) w
    = ((_originalFetch transport input (Some i) (console_error not_a_string w)).1,
       input, Some i,
       (_originalFetch transport input (Some i) (console_error not_a_string w)).2).
Proof.
  intros Hb. unfold textPre_callback. rewrite Hb. split; [done|].
  simpl. by destruct (_originalFetch _ _ _ _).
Qed.

(** A request with a Blob body through the identity text pre-hook. *)
Lemma text_pre_non_string_body_witness :
  init_body init_blob = Some (BodyOther "Blob") ∧
  textPre_callback identityTextPre (InputString "/foo") (Some init_blob)
    = PreConsoleError not_a_string
        (PreOriginal (InputString "/foo") (Some init_blob) PreSettle).
Proof.
  split; [reflexivity|].
  exact (proj1 (text_pre_non_string_body transport_ok identityTextPre
                  (InputString "/foo") init_blob "Blob" world0 eq_refl)).
Defined.

(** C6 as stated fails: with a Blob body and a transport that answers, the
    promise of the pre-callback is fulfilled with the transport's response;
    it is not rejected, with a type error or otherwise. *)
Lemma text_pre_blob_body_is_fulfilled :
  (run_pre transport_ok
     (textPre_callback identityTextPre (InputString "/foo") (Some init_blob))
     (InputString "/foo") (Some init_blob) world0).1.1.1 = Resolved response_ok ∧
  ∀ msg,
    (run_pre transport_ok
       (textPre_callback identityTextPre (InputString "/foo") (Some init_blob))
       (InputString "/foo") (Some init_blob) world0).1.1.1 ≠ Rejected (TypeError msg).
Proof. split; [by vm_compute|]. intros msg. by vm_compute. Qed.

(** ** The post-callback chain *)

Section PostChain.

Implicit Types next : nat → Response → World → Completion * nat * Response * World.

Lemma run_post_mono next s index cl w :
  (∀ i c w, i ≤ (next i c w).1.1.2) →
  index ≤ (run_post next s index cl w).1.1.2.
Proof.
  intros Hn. revert index cl w.
  induction s as [|e|k IH|t k IH|k IH]; intros index cl w; simpl.
  - done.
  - done.
  - apply IH.
  - apply IH.
  - pose proof (Hn index cl w) as H.
    destruct (next index cl w) as [[[c i'] cl'] w']. simpl in H.
    etrans; [exact H|]. apply IH.
Qed.

Lemma applyNextPostCallback_mono fuel cbs index cl w :
  index ≤ (applyNextPostCallback fuel cbs index cl w).1.1.2.
Proof.
  revert index cl w. induction fuel as [|fuel IH]; intros index cl w; simpl; [done|].
  destruct (cbs !! index) as [cb|]; [|done].
  etrans; [|apply run_post_mono; apply IH]. lia.
Qed.

Lemma run_post_ext next1 next2 lo s index cl w :
  (∀ i c w, lo ≤ i → next1 i c w = next2 i c w) →
  (∀ i c w, i ≤ (next1 i c w).1.1.2) →
  lo ≤ index →
  run_post next1 s index cl w = run_post next2 s index cl w.
Proof.
  intros He Hm. revert index cl w.
  induction s as [|e|k IH|t k IH|k IH]; intros index cl w Hlo; simpl.
  - done.
  - done.
  - by apply IH.
  - by apply IH.
  - rewrite <- (He index cl w Hlo).
    pose proof (Hm index cl w) as H.
    destruct (next1 index cl w) as [[[c i'] cl'] w']. simpl in H.
    apply IH. lia.
Qed.

Lemma applyNextPostCallback_S fuel cbs index cl w :
  applyNextPostCallback (S fuel) cbs index cl w =
  match cbs !! index with
  | None => (Normal, index, cl, w)
  | Some currentCallback =>
      run_post (applyNextPostCallback fuel cbs) (currentCallback cl) (S index) cl w
  end.
Proof. done. Qed.

(** Fuel for the callbacks that remain is enough: more changes nothing. *)
Lemma applyNextPostCallback_fuel f1 f2 cbs index cl w :
  length cbs - index ≤ f1 → length cbs - index ≤ f2 →
  applyNextPostCallback f1 cbs index cl w = applyNextPostCallback f2 cbs index cl w.
Proof.
  revert f2 index cl w.
  induction f1 as [|f1 IH]; intros f2 index cl w H1 H2.
  - assert (length cbs ≤ index) as Hge by lia.
    destruct f2 as [|f2]; [done|].
    rewrite applyNextPostCallback_S.
    destruct (cbs !! index) as [cb|] eqn:E; [|done].
    apply lookup_lt_Some in E. lia.
  - destruct f2 as [|f2].
    + assert (length cbs ≤ index) as Hge by lia.
      rewrite applyNextPostCallback_S.
      destruct (cbs !! index) as [cb|] eqn:E; [|done].
      apply lookup_lt_Some in E. lia.
    + rewrite !applyNextPostCallback_S.
      destruct (cbs !! index) as [cb|] eqn:E; [|done].
      apply lookup_lt_Some in E.
      apply (run_post_ext _ _ (S index)); [|apply applyNextPostCallback_mono|lia].
      intros i c w' Hi. apply IH; lia.
Qed.

Lemma same_object_refl a : same_object a a.
Proof. done. Qed.

Lemma same_object_trans a b c : same_object a b → same_object b c → same_object a c.
Proof. unfold same_object. intros (-> & -> & ->) (-> & -> & ->). done. Qed.

Lemma run_post_same_object next s index cl w :
  (∀ i c w, same_object c (next i c w).1.2) →
  same_object cl (run_post next s index cl w).1.2.
Proof.
  intros Hn. revert index cl w.
  induction s as [|e|k IH|t k IH|k IH]; intros index cl w; simpl.
  - done.
  - done.
  - apply IH.
  - eapply same_object_trans; [|apply IH]. done.
  - pose proof (Hn index cl w) as H.
    destruct (next index cl w) as [[[c i'] cl'] w']. simpl in H.
    eapply same_object_trans; [exact H|apply IH].
Qed.

(** The chain works on one object: what comes out is [clonedResponse]
    itself, whatever has been done to its [text] method. *)
Lemma applyNextPostCallback_same_object fuel cbs index cl w :
  same_object cl (applyNextPostCallback fuel cbs index cl w).1.2.
Proof.
  revert index cl w. induction fuel as [|fuel IH]; intros index cl w; simpl; [done|].
  destruct (cbs !! index) as [cb|]; [|done].
  apply run_post_same_object, IH.
Qed.

End PostChain.

(** X4: with no pre-callbacks and at least one post-callback, a request
    that the transport answers ends as the post-callback chain ends, run
    on the object made by [response.clone()]: when the chain returns, the
    caller gets that clone, a second object with the status and body the
    transport answered, in the state the post-callbacks left it in, and not
    the transport's response; when a post-callback throws, the request is
    rejected with what it threw. *)
Lemma no_pre_callbacks_return_clone (transport : list Call -> Call -> Outcome Payload)
    (h : Hooks) (input : FetchInput) (init : option RequestInit) (w : World)
    (url : string) (input' : FetchInput) (init' : option RequestInit) (w' : World)
    (entry : HookEntry) (p : Payload) :
  normalize input init w = inl (url, input', init', w') →
  findMatchingEntry h url = Some entry →
  pre_callback entry = [] → post_callback entry ≠ [] →
  transport (w_calls w') (input', init') = Resolved p →
  let response := {| resp_obj := w_next_obj w'; resp_status := status p;
                     resp_body := body p; resp_text := None |} in
  let sent := {| w_calls := w_calls w' ++ [(input', init')];
                 w_console := w_console w'; w_next_obj := S (w_next_obj w') |} in
  let chain := applyNextPostCallback (post_fuel (post_callback entry))
                 (post_callback entry) 0 (clone response sent).1 (clone response sent).2 in
  hookedFetch transport h input init w
    = (match chain.1.1.1 with
       | Normal => Resolved chain.1.2
       | Throw e => Rejected e
       end, chain.2) ∧
  resp_obj chain.1.2 = S (w_next_obj w') ∧
  resp_obj chain.1.2 ≠ resp_obj response ∧
  resp_status chain.1.2 = status p ∧ resp_body chain.1.2 = body p.
Proof.
  intros Hn Hf Hpre Hpost Ht response sent chain. unfold hookedFetch.
  rewrite Hn. cbv beta iota. rewrite Hf, Hpre. change (0 <? length []) with false.
  unfold _originalFetch. rewrite Ht. cbv beta iota zeta. fold response sent.
  destruct (post_callback entry) as [|cb cbs] eqn:E; [done|].
  change (0 <? length (cb :: cbs)) with true. cbv beta iota.
  pose proof (applyNextPostCallback_same_object
                (post_fuel (cb :: cbs)) (cb :: cbs) 0
                (clone response sent).1 (clone response sent).2) as H.
  subst chain.
  destruct (clone response sent) as [cl w1] eqn:Ec. cbn [fst snd] in *.
  destruct (applyNextPostCallback _ _ _ _ _) as [[[c i'] cl'] w2]. simpl in H.
  unfold clone in Ec. injection Ec as <- <-.
  destruct H as (H1 & H2 & H3). simpl in *.
  split; [by destruct c|]. rewrite <- H1, <- H2, <- H3. repeat split; lia.
Qed.

(** C3 at work: the same post-callback, which replaces the [text] method of
    the response it is given, registered for ["/foo"] without and with a
    pre-callback.  Without one, the caller gets the clone, with the replaced
    method.  With one, the caller gets the response of the pre-chain itself:
    the clone and what the post-callback did to it are dropped. *)
Theorem post_callbacks_result_with_pre_callbacks :
  let without_pre := after [CallHookPost (EndpointString "/foo") retext] loaded in
  let with_pre := after [CallHookPre (EndpointString "/foo") pass_through;
                         CallHookPost (EndpointString "/foo") retext] loaded in
  (hookedFetch transport_ok without_pre (InputString "/foo") None world0).1
    = Resolved {| resp_obj := 1; resp_status := 200; resp_body := "ok";
                  resp_text := Some (Resolved "changed") |} ∧
  (hookedFetch transport_ok with_pre (InputString "/foo") None world0).1
    = Resolved {| resp_obj := 1; resp_status := 200; resp_body := "ok";
                  resp_text := None |} ∧
  w_next_obj (hookedFetch transport_ok with_pre (InputString "/foo") None world0).2 = 3.
Proof. by vm_compute. Qed.

(** ** Requests that match nothing *)

(** X24: when normalisation completes and the URL of the request matches no
    matcher, the transport is called once, with the input and init left by
    the normalisation of lines 158-197, and the promise of that call is
    returned as it is.  For an input that is not a [Request] object the
    normalisation changes nothing, and the call is the one the caller would
    have made on the transport itself. *)
Theorem no_match_one_call (transport : list Call -> Call -> Outcome Payload)
    (h : Hooks) (input : FetchInput) (init : option RequestInit) (w : World)
    (url : string) (input' : FetchInput) (init' : option RequestInit) (w' : World) :
  normalize input init w = inl (url, input', init', w') →
  findMatchingEntry h url = None →
  hookedFetch transport h input init w = _originalFetch transport input' init' w' ∧
  w_calls (hookedFetch transport h input init w).2 = w_calls w ++ [(input', init')] ∧
  (is_Request input = false →
   hookedFetch transport h input init w = _originalFetch transport input init w).
Proof.
  intros Hn Hf.
  assert (E : hookedFetch transport h input init w
              = _originalFetch transport input' init' w').
  { unfold hookedFetch. rewrite Hn. cbv beta iota. by rewrite Hf. }
  split; [done|]. split.
  - rewrite E, _originalFetch_calls. f_equal.
    destruct input as [s|href|r|str]; simpl in Hn; try by injection Hn as _ _ _ <-.
    destruct (negb _ && negb _); [|by injection Hn as _ _ _ <-].
    destruct (req_clone r); [done|].
    destruct (req_text r); by injection Hn as _ _ _ <-.
  - intros Hr. rewrite E.
    destruct input as [s|href|r|str]; simpl in Hn, Hr; try done;
      by injection Hn as _ <- <- <-.
Qed.

(** A request given by its URL string, with no matcher registered. *)
Lemma no_match_one_call_witness :
  normalize (InputString "/foo") (Some init_text) world0
    = inl ("/foo", InputString "/foo", Some init_text, world0) ∧
  findMatchingEntry loaded "/foo" = None ∧
  hookedFetch transport_ok loaded (InputString "/foo") (Some init_text) world0
    = _originalFetch transport_ok (InputString "/foo") (Some init_text) world0.
Proof.
  split; [reflexivity|]. split; [reflexivity|].
  exact (proj1 (no_match_one_call transport_ok loaded (InputString "/foo")
                  (Some init_text) world0 "/foo" (InputString "/foo") (Some init_text)
                  world0 eq_refl eq_refl)).
Defined.


(** ** The identity text hooks *)

Lemma normalize_calls input init w url input' init' w' :
  normalize input init w = inl (url, input', init', w') → w_calls w' = w_calls w.
Proof.
  intros Hn.
  destruct input as [s|href|r|str]; simpl in Hn; try by injection Hn as _ _ _ <-.
  destruct (negb _ && negb _); [|by injection Hn as _ _ _ <-].
  destruct (req_clone r); [done|].
  destruct (req_text r); by injection Hn as _ _ _ <-.
Qed.

(** C4 at work: the two identity text hooks registered for ["/foo"], a
    POST request with a text body, and a server that tells the first
    request it receives from the later ones.  Unchanged traffic is one
    request, and its answer for the caller, as the direct call has it.  The
    code sends the request twice, at lines 206-208 before any callback has
    run and at line 216 when the pre-callback calls [original], and the
    caller gets the answer to the second send: 201 and ["second"], where the
    direct call gets 200 and ["first"]. *)
Theorem identity_text_hooks_send_twice :
  let h := after [CallHookTextPre (EndpointString "/foo") identityTextPre;
                  CallHookTextPost (EndpointString "/foo") identityTextPost] loaded in
  let request := (InputString "/foo", Some init_text) in
  findMatchingEntry h "/foo" = Some identity_entry ∧
  w_calls (_originalFetch transport_counting request.1 request.2 world0).2 = [request] ∧
  (_originalFetch transport_counting request.1 request.2 world0).1
    = Resolved {| resp_obj := 0; resp_status := 200; resp_body := "first";
                  resp_text := None |} ∧
  w_calls (hookedFetch transport_counting h request.1 request.2 world0).2
    = [request; request] ∧
  (hookedFetch transport_counting h request.1 request.2 world0).1
    = Resolved {| resp_obj := 1; resp_status := 201; resp_body := "second";
                  resp_text := None |} ∧
  w_console (hookedFetch transport_counting h request.1 request.2 world0).2 = [].
Proof.
  split; [by vm_compute|]. split; [by vm_compute|]. split; [by vm_compute|].
  split; [by vm_compute|]. split; [by vm_compute|]. by vm_compute.
Qed.

(** * Further properties of the pipeline *)

(** ** Failures *)

(** X1: for a request that resolves to no entry, or to an entry without
    pre-callbacks, a transport promise that is rejected or never settles is
    what the caller gets: the transport has been called once, no
    post-callback has run and no response object has been made. *)
Theorem transport_failure_without_pre_callbacks
    (transport : list Call -> Call -> Outcome Payload) (h : Hooks)
    (input : FetchInput) (init : option RequestInit) (w : World)
    (url : string) (input' : FetchInput) (init' : option RequestInit) (w' : World) :
  normalize input init w = inl (url, input', init', w') →
  (∀ entry, findMatchingEntry h url = Some entry → pre_callback entry = []) →
  (∀ p, transport (w_calls w') (input', init') ≠ Resolved p) →
  hookedFetch transport h input init w = _originalFetch transport input' init' w' ∧
  (∀ r, (hookedFetch transport h input init w).1 ≠ Resolved r) ∧
  (∀ e, transport (w_calls w') (input', init') = Rejected e →
        (hookedFetch transport h input init w).1 = Rejected e) ∧
  w_calls (hookedFetch transport h input init w).2 = w_calls w ++ [(input', init')] ∧
  w_next_obj (hookedFetch transport h input init w).2 = w_next_obj w'.
Proof.
  intros Hn Hpre Ht.
  assert (E : hookedFetch transport h input init w
              = _originalFetch transport input' init' w').
  { unfold hookedFetch. rewrite Hn.
    destruct (findMatchingEntry h url) as [entry|] eqn:Hf; [|done].
    rewrite (Hpre entry eq_refl). change (0 <? length []) with false. cbv iota.
    unfold _originalFetch.
    destruct (transport (w_calls w') (input', init')) as [p|e|]; [|done..].
    by destruct (Ht p). }
  rewrite E. split; [done|].
  pose proof (_originalFetch_calls transport input' init' w') as C.
  rewrite (normalize_calls _ _ _ _ _ _ _ Hn) in C.
  split; [|split; [|split; [exact C|]]]; clear C; unfold _originalFetch;
    destruct (transport (w_calls w') (input', init')) as [p|e|] eqn:T;
    try (by destruct (Ht p)); try done.
  by intros e' [= ->].
Qed.

(** A request for ["/foo"], a post-callback registered, the transport down. *)
Lemma transport_failure_without_pre_callbacks_witness :
  normalize (InputString "/foo") None world0
    = inl ("/foo", InputString "/foo", None, world0) ∧
  hookedFetch transport_down (after [CallHookPost (EndpointString "/foo") retext] loaded)
    (InputString "/foo") None world0
  = _originalFetch transport_down (InputString "/foo") None world0.
Proof.
  split; [reflexivity|].
  refine (proj1 (transport_failure_without_pre_callbacks transport_down
                   (after [CallHookPost (EndpointString "/foo") retext] loaded)
                   (InputString "/foo") None world0
                   "/foo" (InputString "/foo") None world0 eq_refl _ _)).
  - intros entry H. vm_compute in H. by injection H as <-.
  - intros p H. discriminate H.
Defined.

Lemma pre_chain_app transport l1 l2 o input init w :
  pre_chain transport (l1 ++ l2) o input init w
  = pre_chain transport l2
      (pre_chain transport l1 o input init w).1.1.1
      (pre_chain transport l1 o input init w).1.1.2
      (pre_chain transport l1 o input init w).1.2
      (pre_chain transport l1 o input init w).2.
Proof.
  revert o input init w. induction l1 as [|c l1 IH]; intros o input init w; [done|].
  simpl. destruct o as [r|e|]; [|apply IH..].
  destruct (run_pre transport (c input init) input init w) as [[[o1 i1] n1] w1].
  apply IH.
Qed.

(** X2: a pre-callback whose promise is rejected or never settles ends the
    request, wherever it stands in the list and whatever it did with its
    continuation: the caller gets that promise's outcome, and neither the
    pre-callbacks registered after it nor any post-callback runs (the world
    is left as that callback left it). *)
Theorem unfulfilled_pre_callback_ends_request
    (transport : list Call -> Call -> Outcome Payload) (h : Hooks)
    (input : FetchInput) (init : option RequestInit) (w : World)
    (url : string) (input' : FetchInput) (init' : option RequestInit) (w' : World)
    (entry : HookEntry) (before : list HookPreCallback) (A : HookPreCallback)
    (rest : list HookPreCallback) (r0 r1 : Response) (w0 w1 w2 : World)
    (i1 i2 : FetchInput) (n1 n2 : option RequestInit) (oA : Outcome Response) :
  normalize input init w = inl (url, input', init', w') →
  findMatchingEntry h url = Some entry →
  pre_callback entry = before ++ A :: rest →
  _originalFetch transport input' init' w' = (Resolved r0, w0) →
  pre_chain transport before (Resolved r0) input' init' w0 = (Resolved r1, i1, n1, w1) →
  run_pre transport (A i1 n1) i1 n1 w1 = (oA, i2, n2, w2) →
  (∀ r, oA ≠ Resolved r) →
  hookedFetch transport h input init w = (oA, w2).
Proof.
  intros Hn Hf Hpre Hseed Hbefore HA Hun.
  unfold hookedFetch. rewrite Hn, Hf, Hpre.
  assert (L : (0 <? length (before ++ A :: rest)) = true).
  { apply Nat.ltb_lt. rewrite length_app. simpl. lia. }
  rewrite L, Hseed. rewrite pre_chain_app, Hbefore. simpl.
  rewrite HA, (pre_chain_unresolved transport rest oA i2 n2 w2 Hun).
  destruct oA as [r|e|]; [by destruct (Hun r)|done..].
Qed.

(** [failing] registered before [with_method "B"]: the request is rejected
    with the error of [failing]. *)
Lemma unfulfilled_pre_callback_ends_request_witness :
  findMatchingEntry
    (after [CallHookPre (EndpointString "/foo") failing;
            CallHookPre (EndpointString "/foo") (with_method "B");
            CallHookPost (EndpointString "/foo") retext] loaded) "/foo"
  = Some {| pre_callback := [failing; with_method "B"]; post_callback := [retext] |} ∧
  hookedFetch transport_ok
    (after [CallHookPre (EndpointString "/foo") failing;
            CallHookPre (EndpointString "/foo") (with_method "B");
            CallHookPost (EndpointString "/foo") retext] loaded)
    (InputString "/foo") None world0
  = (Rejected (OtherError "boom"),
     {| w_calls := [(InputString "/foo", None)]; w_console := []; w_next_obj := 1 |}).
Proof.
  split; [by vm_compute|].
  refine (unfulfilled_pre_callback_ends_request transport_ok _
            (InputString "/foo") None world0 "/foo" (InputString "/foo") None world0
            {| pre_callback := [failing; with_method "B"]; post_callback := [retext] |}
            [] failing [with_method "B"] response_ok response_ok
            _ _ _ (InputString "/foo") (InputString "/foo") None None
            (Rejected (OtherError "boom")) eq_refl _ eq_refl eq_refl eq_refl eq_refl _).
  - by vm_compute.
  - intros r H. discriminate H.
Defined.

(** ** The post-callback chain, continued *)

Lemma run_post_never next s index cl w :
  post_never_invokes s →
  run_post next s index cl w = run_post no_next s index cl w ∧
  (run_post next s index cl w).1.1.2 = index.
Proof.
  revert index cl w.
  induction s as [|e|k IH|t k IH|k IH]; intros index cl w H; simpl in *.
  - done.
  - done.
  - apply IH, H.
  - by apply IH.
  - done.
Qed.

Lemma run_post_at_most_once_ext
    (next1 next2 : nat → Response → World → Completion * nat * Response * World)
    s index cl w :
  post_invokes_at_most_once s →
  (∀ cl w, next1 index cl w = next2 index cl w) →
  run_post next1 s index cl w = run_post next2 s index cl w.
Proof.
  intros H Hn. revert cl w.
  induction s as [|e|k IH|t k IH|k IH]; intros cl w; simpl in *.
  - done.
  - done.
  - apply IH, H.
  - by apply IH.
  - rewrite Hn. destruct (next2 index cl w) as [[[c i'] cl'] w'].
    destruct (run_post_never next1 (k c) i' cl' w' (H c)) as [-> _].
    by destruct (run_post_never next2 (k c) i' cl' w' (H c)) as [-> _].
Qed.

Lemma run_post_bound
    (next : nat → Response → World → Completion * nat * Response * World)
    s index cl w n :
  (∀ i cl w, i ≤ n → (next i cl w).1.1.2 ≤ n) →
  index ≤ n → (run_post next s index cl w).1.1.2 ≤ n.
Proof.
  intros Hn. revert index cl w.
  induction s as [|e|k IH|t k IH|k IH]; intros index cl w Hi; simpl.
  - done.
  - done.
  - by apply IH.
  - by apply IH.
  - pose proof (Hn index cl w Hi) as H.
    destruct (next index cl w) as [[[c i'] cl'] w']. simpl in H. by apply IH.
Qed.

(** [index] never passes the end of the list. *)
Lemma applyNextPostCallback_bound fuel cbs index cl w :
  index ≤ length cbs → (applyNextPostCallback fuel cbs index cl w).1.1.2 ≤ length cbs.
Proof.
  revert index cl w. induction fuel as [|fuel IH]; intros index cl w Hi; [done|].
  rewrite applyNextPostCallback_S.
  destruct (cbs !! index) as [cb|] eqn:E; [|done].
  apply lookup_lt_Some in E.
  apply run_post_bound; [|lia]. intros i cl' w' Hle. by apply IH.
Qed.

(** The callbacks behind one that does not call its continuation are out
    of reach of a chain in which no earlier callback calls its own
    continuation twice. *)
Lemma applyNextPostCallback_silent fuel before cb rest index cl w :
  Forall (λ c, ∀ r, post_invokes_at_most_once (c r)) before →
  (∀ r, post_never_invokes (cb r)) →
  index ≤ length before →
  applyNextPostCallback fuel (before ++ cb :: rest) index cl w
  = applyNextPostCallback fuel (before ++ [cb]) index cl w.
Proof.
  intros Hall Hcb. revert index cl w.
  induction fuel as [|fuel IH]; intros index cl w Hi; [done|].
  rewrite !applyNextPostCallback_S.
  destruct (decide (index < length before)) as [Hlt|Hge].
  - rewrite !lookup_app_l by done.
    destruct (before !! index) as [c|] eqn:E; [|done].
    apply run_post_at_most_once_ext.
    + eapply Forall_lookup_1 in Hall; [|exact E]. apply Hall.
    + intros cl' w'. apply IH. lia.
  - assert (index = length before) as -> by lia.
    rewrite !list_lookup_middle by done.
    destruct (run_post_never (applyNextPostCallback fuel (before ++ cb :: rest))
                (cb cl) (S (length before)) cl w (Hcb cl)) as [-> _].
    by destruct (run_post_never (applyNextPostCallback fuel (before ++ [cb]))
                   (cb cl) (S (length before)) cl w (Hcb cl)) as [-> _].
Qed.

(** X3: a post-callback that does not call its continuation ends the
    chain, when no post-callback registered before it calls its own
    continuation more than once: the post-callbacks registered after it do
    not run.  The chain does what it does when that callback is the last of
    the list, and [index] stops at that callback or before it. *)
Theorem silent_post_callback_ends_chain (before : list HookPostCallback)
    (cb : HookPostCallback) (rest : list HookPostCallback)
    (clonedResponse : Response) (w : World) :
  Forall (λ c, ∀ r, post_invokes_at_most_once (c r)) before →
  (∀ r, post_never_invokes (cb r)) →
  applyNextPostCallback (post_fuel (before ++ cb :: rest)) (before ++ cb :: rest) 0
    clonedResponse w
  = applyNextPostCallback (post_fuel (before ++ [cb])) (before ++ [cb]) 0
      clonedResponse w ∧
  (applyNextPostCallback (post_fuel (before ++ cb :: rest)) (before ++ cb :: rest) 0
     clonedResponse w).1.1.2 ≤ S (length before).
Proof.
  intros Hall Hcb.
  assert (E : applyNextPostCallback (post_fuel (before ++ cb :: rest))
                (before ++ cb :: rest) 0 clonedResponse w
              = applyNextPostCallback (post_fuel (before ++ [cb])) (before ++ [cb]) 0
                  clonedResponse w).
  { rewrite (applyNextPostCallback_silent _ before cb rest 0 clonedResponse w Hall Hcb)
      by lia.
    apply applyNextPostCallback_fuel; unfold post_fuel; rewrite !length_app; simpl; lia. }
  split; [exact E|]. rewrite E.
  etrans; [apply applyNextPostCallback_bound; lia|].
  rewrite length_app. simpl. lia.
Qed.

(** [stop_here] registered after [retext] and before the post-callback of a
    text hook: the text is the one set by [stop_here], and the text hook has
    not run. *)
Lemma silent_post_callback_ends_chain_witness :
  Forall (λ c : Response → PostScript, ∀ r, post_invokes_at_most_once (c r)) [retext] ∧
  (∀ r, post_never_invokes (stop_here r)) ∧
  applyNextPostCallback (post_fuel [retext; stop_here; textPost_callback exclaim])
    [retext; stop_here; textPost_callback exclaim] 0 response_ok world0
  = (Normal, 2, set_text (Resolved "stopped") response_ok, world0).
Proof.
  assert (H : Forall (λ c : Response → PostScript, ∀ r, post_invokes_at_most_once (c r))
                [retext]).
  { apply Forall_cons_2; [intros r c; exact I|]. apply Forall_nil_2. }
  split; [exact H|]. split; [intros r; exact I|].
  exact (proj1 (silent_post_callback_ends_chain [retext] stop_here
                  [textPost_callback exclaim] response_ok world0 H (λ r, I))).
Defined.

(** A request for ["/foo"] with only [retext] registered. *)
Lemma no_pre_callbacks_return_clone_witness :
  normalize (InputString "/foo") None world0
    = inl ("/foo", InputString "/foo", None, world0) ∧
  findMatchingEntry (after [CallHookPost (EndpointString "/foo") retext] loaded) "/foo"
    = Some {| pre_callback := []; post_callback := [retext] |} ∧
  hookedFetch transport_ok (after [CallHookPost (EndpointString "/foo") retext] loaded)
    (InputString "/foo") None world0
  = (Resolved {| resp_obj := 1; resp_status := 200; resp_body := "ok";
                 resp_text := Some (Resolved "changed") |},
     {| w_calls := [(InputString "/foo", None)]; w_console := []; w_next_obj := 2 |}).
Proof.
  split; [reflexivity|]. split; [by vm_compute|].
  refine (proj1 (no_pre_callbacks_return_clone transport_ok
            (after [CallHookPost (EndpointString "/foo") retext] loaded)
            (InputString "/foo") None world0 "/foo" (InputString "/foo") None world0
            {| pre_callback := []; post_callback := [retext] |}
            {| status := 200; body := "ok" |} eq_refl _ eq_refl _ eq_refl)).
  - by vm_compute.
  - discriminate.
Defined.

(** ** Hooks registered on one matcher *)

Lemma pres_for_same_endpoint endpoint k rs :
  matcher endpoint = Some k →
  Forall (λ r, reg_endpoint r = endpoint) rs →
  entry_for k rs
  = {| pre_callback := flat_map reg_pre rs; post_callback := flat_map reg_post rs |}.
Proof.
  intros Hk H. unfold entry_for, pres_for, posts_for.
  induction H as [|r rs Hr H IH]; [done|].
  simpl. rewrite Hr, Hk. rewrite !decide_True by done.
  by injection IH as -> ->.
Qed.

Lemma patterns_same_endpoint re rs acc :
  Forall (λ r, reg_endpoint r = EndpointRegExp re) rs →
  re_toString re ∈ map re_toString acc →
  fold_left note_pattern rs acc = acc.
Proof.
  intros H. revert acc. induction H as [|r rs Hr H IH]; intros acc Hin; [done|].
  simpl. unfold note_pattern at 2. rewrite Hr.
  rewrite decide_True by done. by apply (IH acc).
Qed.

(** After registrations that all name one matcher, every URL of that
    matcher resolves to the entry holding their callbacks in order. *)
Lemma same_endpoint_entry endpoint rs url :
  rs ≠ [] →
  Forall (λ r, reg_endpoint r = endpoint) rs →
  applies endpoint url = true →
  findMatchingEntry (after rs loaded) url
  = Some {| pre_callback := flat_map reg_pre rs; post_callback := flat_map reg_post rs |}.
Proof.
  intros Hne Hall Ha.
  destruct (tables_after rs) as (Ht & Hr & _ & _).
  unfold findMatchingEntry. rewrite Ht, Hr.
  destruct rs as [|r0 rs]; [done|].
  pose proof (Forall_inv Hall) as H0.
  destruct endpoint as [s|re|t]; simpl in Ha; [| |done].
  - apply String.eqb_eq in Ha as ->.
    rewrite decide_True.
    + by rewrite (pres_for_same_endpoint (EndpointString url) (inl url)).
    + apply Exists_cons_hd. by rewrite H0.
  - rewrite decide_False.
    + assert (P : patterns (r0 :: rs) = [re]).
      { unfold patterns. simpl. unfold note_pattern at 2. rewrite H0. simpl.
        apply (patterns_same_endpoint re); [by apply Forall_inv_tail in Hall|].
        simpl. apply list_elem_of_here. }
      rewrite P. simpl. rewrite Ha. simpl.
      by rewrite (pres_for_same_endpoint (EndpointRegExp re) (inr (re_toString re))).
    + unfold registered. rewrite Exists_exists. intros (r & Hin & Hm).
      eapply Forall_forall in Hall; [|exact Hin].
      simpl in Hall. by rewrite Hall in Hm.
Qed.

Lemma text_post_registrations endpoint (cbs : list HookTextPostCallback) :
  Forall (λ r, reg_endpoint r = endpoint) (map (CallHookTextPost endpoint) cbs) ∧
  flat_map reg_pre (map (CallHookTextPost endpoint) cbs) = [] ∧
  flat_map reg_post (map (CallHookTextPost endpoint) cbs) = map textPost_callback cbs.
Proof.
  induction cbs as [|cb cbs (IH1 & IH2 & IH3)]; [by repeat constructor|].
  simpl. split; [by constructor|]. split; [done|]. by rewrite IH3.
Qed.

(** The chain of the post-callbacks of [hookTextPost]: each one replaces
    the [text] method set by the one before it, and reads the body from a
    clone of its own. *)
Lemma text_post_chain (cbs : list HookTextPostCallback) fuel index cl w :
  length cbs - index ≤ fuel →
  (applyNextPostCallback fuel (map textPost_callback cbs) index cl w).1.1.1 = Normal ∧
  (applyNextPostCallback fuel (map textPost_callback cbs) index cl w).1.2
  = match last (drop index cbs) with
    | Some cb => set_text (textPost_executor (cb (resp_body cl))) cl
    | None => cl
    end ∧
  w_calls (applyNextPostCallback fuel (map textPost_callback cbs) index cl w).2 = w_calls w.
Proof.
  revert index cl w. induction fuel as [|fuel IH]; intros index cl w Hf.
  - simpl. rewrite drop_ge by lia. done.
  - rewrite applyNextPostCallback_S, list_lookup_fmap.
    destruct (cbs !! index) as [cb|] eqn:E; simpl.
    + pose proof (lookup_lt_Some _ _ _ E) as Hlt.
      rewrite (drop_S _ _ _ E), last_cons.
      set (cl1 := set_text _ cl). set (w1 := Build_World _ _ _).
      destruct (IH (S index) cl1 w1 ltac:(lia)) as (H1 & H2 & H3).
      destruct (applyNextPostCallback fuel _ (S index) cl1 w1) as [[[c i'] cl'] w'].
      simpl in H1, H2, H3. subst c. simpl.
      split; [done|]. split; [|done].
      rewrite H2. by destruct (last (drop (S index) cbs)).
    + rewrite drop_ge; [done|]. by apply lookup_ge_None.
Qed.

(** X5: when the hooks registered on a matcher are text post-hooks only,
    a fulfilled request of that matcher returns the clone with the
    transport's status and body, and its [text()] settles as the callback
    registered last makes it settle on the body the transport sent: resolved
    with the text that callback first passes to its continuation, rejected
    if it throws before that, pending if it returns without calling it.  The
    text post-hooks registered before the last one have no effect on what
    the caller reads. *)
Theorem last_text_post_hook_decides (transport : list Call -> Call -> Outcome Payload)
    (endpoint : Endpoint) (cbs : list HookTextPostCallback)
    (cb_last : HookTextPostCallback)
    (input : FetchInput) (init : option RequestInit) (w : World)
    (url : string) (input' : FetchInput) (init' : option RequestInit) (w' : World)
    (p : Payload) :
  let h := after (map (CallHookTextPost endpoint) (cbs ++ [cb_last])) loaded in
  normalize input init w = inl (url, input', init', w') →
  applies endpoint url = true →
  transport (w_calls w') (input', init') = Resolved p →
  ∃ r,
    (hookedFetch transport h input init w).1 = Resolved r ∧
    resp_obj r = S (w_next_obj w') ∧
    resp_status r = status p ∧ resp_body r = body p ∧
    text r = textPost_executor (cb_last (body p)) ∧
    w_calls (hookedFetch transport h input init w).2 = w_calls w ++ [(input', init')].
Proof.
  intros h Hn Ha Ht.
  destruct (text_post_registrations endpoint (cbs ++ [cb_last])) as (R1 & R2 & R3).
  assert (Hf : findMatchingEntry h url
               = Some {| pre_callback := [];
                         post_callback := map textPost_callback (cbs ++ [cb_last]) |}).
  { unfold h. rewrite (same_endpoint_entry endpoint _ url); [by rewrite R2, R3| |done|done].
    rewrite map_app. by destruct (map _ cbs). }
  pose proof (normalize_calls _ _ _ _ _ _ _ Hn) as Cn.
  unfold hookedFetch. rewrite Hn, Hf. cbn [pre_callback post_callback].
  change (0 <? length []) with false. cbv iota.
  unfold _originalFetch. rewrite Ht. cbv beta iota zeta.
  assert (L : (0 <? length (map textPost_callback (cbs ++ [cb_last]))) = true).
  { apply Nat.ltb_lt. rewrite length_map, length_app. simpl. lia. }
  rewrite L. unfold clone. cbv beta iota zeta.
  match goal with
  | |- context [applyNextPostCallback ?f ?l 0 ?cl ?w1] =>
      destruct (text_post_chain (cbs ++ [cb_last]) f 0 cl w1) as (H1 & H2 & H3);
        [unfold post_fuel; rewrite length_map; lia|];
        destruct (applyNextPostCallback f l 0 cl w1) as [[[c i'] cl'] w2]
  end.
  simpl in H1, H2, H3. subst c.
  rewrite drop_0, last_snoc in H2. subst cl'.
  eexists. split; [reflexivity|]. simpl.
  repeat split; try done. by rewrite H3, Cn.
Qed.

(** [wonder] registered before [exclaim] on ["/foo"]: a body ["ok"] is read
    as ["ok!"]. *)
Lemma last_text_post_hook_decides_witness :
  normalize (InputString "/foo") None world0
    = inl ("/foo", InputString "/foo", None, world0) ∧
  applies (EndpointString "/foo") "/foo" = true ∧
  transport_ok (w_calls world0) (InputString "/foo", None)
    = Resolved {| status := 200; body := "ok" |} ∧
  ∃ r,
    (hookedFetch transport_ok
       (after (map (CallHookTextPost (EndpointString "/foo")) ([wonder] ++ [exclaim])) loaded)
       (InputString "/foo") None world0).1 = Resolved r ∧
    text r = Resolved "ok!".
Proof.
  split; [reflexivity|]. split; [reflexivity|]. split; [reflexivity|].
  destruct (last_text_post_hook_decides transport_ok (EndpointString "/foo")
              [wonder] exclaim (InputString "/foo") None world0
              "/foo" (InputString "/foo") None world0
              {| status := 200; body := "ok" |} eq_refl eq_refl eq_refl)
    as (r & H1 & _ & _ & _ & H5 & _).
  exists r. split; [exact H1|exact H5].
Defined.

(** ** The text pre-hook, continued *)

Lemma same_but_body_refl init : same_but_body init init.
Proof. by destruct init. Qed.

Lemma textPre_executor_calls transport s input init0 init1 settled inputv initv w :
  same_but_body init0 init1 →
  ∃ cs,
    w_calls (run_pre transport (textPre_executor s input init1 settled) inputv initv w).2
      = w_calls w ++ cs ∧
    Forall (λ c, c.1 = input ∧ same_but_body init0 c.2 ∧
                 (c.2 = init1 ∨ ∃ b, c.2 ≫= init_body = Some (BodyString b))) cs.
Proof.
  revert init1 settled inputv initv w.
  induction s as [|e|nb k IH]; intros init1 settled inputv initv w Hs; simpl.
  - exists []. by rewrite app_nil_r.
  - exists []. by rewrite app_nil_r.
  - set (init2 := match nb with
                  | Some b => match init1 with
                              | Some i => Some (set_body (BodyString b) i)
                              | None => init1
                              end
                  | None => init1
                  end).
    assert (Hs2 : same_but_body init0 init2).
    { unfold init2. destruct nb as [b|]; [|done]. by destruct init0, init1. }
    assert (Hb : init2 = init1 ∨ ∃ b, init2 ≫= init_body = Some (BodyString b)).
    { unfold init2. destruct nb as [b|]; [|by left].
      destruct init1 as [i|]; [right; by exists b|by left]. }
    pose proof (_originalFetch_calls transport input init2 w) as C.
    destruct (_originalFetch transport input init2 w) as [o w1]. simpl in C.
    destruct (IH init2 (first_settled settled o) input init2 w1 Hs2) as (cs & E & F).
    exists ((input, init2) :: cs). split.
    + rewrite E, C. by rewrite <- app_assoc.
    + constructor; [done|].
      eapply Forall_impl; [exact F|].
      intros c (H1 & H2 & [H3|H3]); (split; [done|]); (split; [done|]).
      * rewrite H3. destruct Hb as [->|Hb]; [by left|by right].
      * by right.
Qed.

(** X6: the pre-callback of [hookTextPre] changes nothing but the body:
    whatever the text callback does, every transport call it causes carries
    the input it was given and an [init] with the same method and headers,
    whose body is the one it was given or a string; and when the request was
    made without [init], every such call is made without [init] too, so that
    a new body passed by the text callback is dropped. *)
Theorem text_pre_hook_changes_body_only (transport : list Call -> Call -> Outcome Payload)
    (callback : HookTextPreCallback) (input : FetchInput) (init : option RequestInit)
    (w : World) :
  ∃ cs,
    w_calls (run_pre transport (textPre_callback callback input init) input init w).2
      = w_calls w ++ cs ∧
    Forall (λ c, c.1 = input ∧ same_but_body init c.2 ∧
                 (c.2 = init ∨ ∃ b, c.2 ≫= init_body = Some (BodyString b))) cs ∧
    (init = None → Forall (λ c, c = (input, None)) cs).
Proof.
  assert (G : ∃ cs,
    w_calls (run_pre transport (textPre_callback callback input init) input init w).2
      = w_calls w ++ cs ∧
    Forall (λ c, c.1 = input ∧ same_but_body init c.2 ∧
                 (c.2 = init ∨ ∃ b, c.2 ≫= init_body = Some (BodyString b))) cs).
  { unfold textPre_callback.
    destruct init as [i|]; [destruct (init_body i) as [[b|kind]|] eqn:B|];
      try (apply textPre_executor_calls, same_but_body_refl).
    simpl. pose proof (_originalFetch_calls transport input (Some i)
                         (console_error "UPL: Tried to hook text fetch request but body is not a string!" w)) as C.
    destruct (_originalFetch transport input (Some i) _) as [o w1]. simpl in C.
    exists [(input, Some i)]. split; [done|].
    constructor; [|constructor]. split; [done|]. split; [done|]. by left. }
  destruct G as (cs & E & F). exists cs. split; [done|]. split; [done|].
  intros ->. eapply Forall_impl; [exact F|].
  intros [i n] (H1 & H2 & _). simpl in *. subst i. by destruct n.
Qed.

Lemma textPre_executor_throws transport s e input init settled inputv initv w :
  text_pre_throws e s →
  (run_pre transport (textPre_executor s input init settled) inputv initv w).1.1.1
  = Rejected e.
Proof.
  revert init settled inputv initv w.
  induction s as [|e'|nb k IH]; intros init settled inputv initv w H; simpl in *.
  - done.
  - by rewrite H.
  - destruct (_originalFetch transport input _ w) as [o w1]. by apply IH.
Qed.

(** X7: for a request whose body is absent or a string, the promise of
    the pre-callback of [hookTextPre] is rejected with the error the text
    callback throws, even when the callback has called its continuation
    before throwing; and it never settles, without any transport call, when
    the callback returns without having called its continuation. *)
Theorem text_pre_callback_failure (transport : list Call -> Call -> Outcome Payload)
    (callback : HookTextPreCallback) (input : FetchInput) (init : option RequestInit)
    (w : World) :
  textual init →
  (∀ e, text_pre_throws e (callback (body_text init)) →
        (run_pre transport (textPre_callback callback input init) input init w).1.1.1
        = Rejected e) ∧
  (callback (body_text init) = TextPreReturn →
   run_pre transport (textPre_callback callback input init) input init w
   = (Pending, input, init, w)).
Proof.
  intros Ht.
  assert (E : textPre_callback callback input init
              = textPre_executor (callback (body_text init)) input init Pending).
  { unfold textPre_callback, body_text, textual in *.
    destruct init as [i|]; simpl in *; [|done].
    by destruct (init_body i) as [[b|kind]|]. }
  rewrite E. split.
  - intros e H. by apply textPre_executor_throws.
  - intros ->. done.
Qed.

(** A POST with a text body, and a callback that throws after sending. *)
Lemma text_pre_callback_failure_witness :
  textual (Some init_text) ∧
  (run_pre transport_ok
     (textPre_callback (send_then_throw "x") (InputString "/foo") (Some init_text))
     (InputString "/foo") (Some init_text) world0).1.1.1
  = Rejected (OtherError "late").
Proof.
  split; [exact I|].
  exact (proj1 (text_pre_callback_failure transport_ok (send_then_throw "x")
                  (InputString "/foo") (Some init_text) world0 I)
           (OtherError "late") eq_refl).
Defined.

(** ** The tables, continued *)

Lemma add_callbacks_prefix pre post entry :
  pre_callback entry `prefix_of` pre_callback (add_callbacks pre post entry) ∧
  post_callback entry `prefix_of` post_callback (add_callbacks pre post entry).
Proof. split; by eexists. Qed.

Lemma call_keeps_text r h s e :
  _entriesText h !! s = Some e →
  ∃ e', _entriesText (call r h).2 !! s = Some e' ∧
        pre_callback e `prefix_of` pre_callback e' ∧
        post_callback e `prefix_of` post_callback e'.
Proof.
  intros H. rewrite call_text.
  destruct (reg_endpoint r) as [s0|re|t]; try by exists e.
  destruct (decide (s0 = s)) as [->|Hne].
  - rewrite lookup_insert_eq, H. simpl. eexists. split; [done|].
    apply add_callbacks_prefix.
  - rewrite lookup_insert_ne by done. by exists e.
Qed.

Lemma call_keeps_regex r h i re e :
  _entriesRegex h !! i = Some (re, e) →
  ∃ e', _entriesRegex (call r h).2 !! i = Some (re, e') ∧
        pre_callback e `prefix_of` pre_callback e' ∧
        post_callback e `prefix_of` post_callback e'.
Proof.
  intros H. rewrite call_regex.
  destruct (reg_endpoint r) as [s0|re0|t]; try by exists e.
  destruct (list_find _ _) as [[j x]|] eqn:F.
  - apply list_find_Some in F as (Hj & _ & _).
    destruct (decide (j = i)) as [->|Hne].
    + rewrite list_lookup_insert_eq by (by eapply lookup_lt_Some).
      rewrite H in Hj. injection Hj as <-. simpl.
      eexists. split; [done|]. apply add_callbacks_prefix.
    + rewrite list_lookup_insert_ne by done. by exists e.
  - rewrite lookup_app_l by (by eapply lookup_lt_Some). by exists e.
Qed.

(** X9: registration is append-only, from any state of the module.  After
    any further registrations, an exact string that had an entry still has
    one, every pattern pair is still at its position with the same pattern
    object, and in both cases the callback lists of the entry begin with the
    callbacks it held before, in the same order. *)
Theorem registrations_only_append (rs : list Registration) (h : Hooks) :
  (∀ s e, _entriesText h !! s = Some e →
     ∃ e', _entriesText (after rs h) !! s = Some e' ∧
           pre_callback e `prefix_of` pre_callback e' ∧
           post_callback e `prefix_of` post_callback e') ∧
  (∀ i re e, _entriesRegex h !! i = Some (re, e) →
     ∃ e', _entriesRegex (after rs h) !! i = Some (re, e') ∧
           pre_callback e `prefix_of` pre_callback e' ∧
           post_callback e `prefix_of` post_callback e').
Proof.
  revert h. induction rs as [|r rs IH]; intros h.
  - split; [intros s e H|intros i re e H]; by exists e.
  - destruct (IH (call r h).2) as [IHt IHr]. simpl. split.
    + intros s e H.
      destruct (call_keeps_text r h s e H) as (e1 & H1 & P1 & Q1).
      destruct (IHt s e1 H1) as (e' & H' & P' & Q').
      exists e'. split; [done|]. split; by etrans.
    + intros i re e H.
      destruct (call_keeps_regex r h i re e H) as (e1 & H1 & P1 & Q1).
      destruct (IHr i re e1 H1) as (e' & H' & P' & Q').
      exists e'. split; [done|]. split; by etrans.
Qed.

(** ["/foo"] hooked by [mock], then by two more callbacks. *)
Lemma registrations_only_append_witness :
  _entriesText (after [CallHookPre (EndpointString "/foo") mock] loaded) !! "/foo"
    = Some {| pre_callback := [mock]; post_callback := [] |} ∧
  ∃ e', _entriesText
          (after [CallHookPre (EndpointString "/foo") pass_through;
                  CallHookPost (EndpointString "/foo") retext]
             (after [CallHookPre (EndpointString "/foo") mock] loaded)) !! "/foo"
        = Some e' ∧
        [mock] `prefix_of` pre_callback e' ∧ [] `prefix_of` post_callback e'.
Proof.
  assert (H : _entriesText (after [CallHookPre (EndpointString "/foo") mock] loaded) !! "/foo"
              = Some {| pre_callback := [mock]; post_callback := [] |}) by (by vm_compute).
  split; [exact H|].
  exact (proj1 (registrations_only_append
                  [CallHookPre (EndpointString "/foo") pass_through;
                   CallHookPost (EndpointString "/foo") retext]
                  (after [CallHookPre (EndpointString "/foo") mock] loaded))
           "/foo" _ H).
Defined.

Lemma registered_has_callback k rs :
  registered k rs →
  pre_callback (entry_for k rs) ≠ [] ∨ post_callback (entry_for k rs) ≠ [].
Proof.
  unfold registered, entry_for, pres_for, posts_for. simpl.
  induction 1 as [r rs Hr|r rs H IH].
  - simpl. rewrite !decide_True by done. by destruct r; [left|right|left|right].
  - simpl. destruct IH as [IH|IH]; [left|right]; intros E;
      apply app_eq_nil in E as [_ E]; by apply IH.
Qed.

(** X10: from the loaded module, whatever the registrations, the entry a
    URL resolves to holds at least one callback: an entry is only ever made
    together with its first callback.  For such a request [hookedFetch]
    therefore always takes the branch of the pre-callbacks or, without them,
    that of the post-callbacks. *)
Theorem resolved_entry_has_callback (rs : list Registration) (url : string)
    (entry : HookEntry) :
  findMatchingEntry (after rs loaded) url = Some entry →
  pre_callback entry ≠ [] ∨ post_callback entry ≠ [].
Proof.
  destruct (tables_after rs) as (Ht & Hr & _ & Hm).
  unfold findMatchingEntry. rewrite find_scan, Ht, Hr.
  case_decide as Hreg.
  - intros [= <-]. by apply registered_has_callback.
  - rewrite find_map_entries.
    destruct (List.find _ _) as [re|] eqn:F; [|done]. simpl.
    intros [= <-]. apply registered_has_callback, Hm.
    apply find_some in F as [Hin _].
    apply list_elem_of_fmap. exists re. split; [done|]. by apply list_elem_of_In.
Qed.

(** ["/foo"] after one post-hook has been registered on it. *)
Lemma resolved_entry_has_callback_witness :
  findMatchingEntry (after [CallHookPost (EndpointString "/foo") retext] loaded) "/foo"
    = Some {| pre_callback := []; post_callback := [retext] |} ∧
  (pre_callback {| pre_callback := []; post_callback := [retext] |} ≠ [] ∨
   post_callback {| pre_callback := []; post_callback := [retext] |} ≠ []).
Proof.
  assert (H : findMatchingEntry
                (after [CallHookPost (EndpointString "/foo") retext] loaded) "/foo"
              = Some {| pre_callback := []; post_callback := [retext] |})
    by (by vm_compute).
  split; [exact H|].
  exact (resolved_entry_has_callback [CallHookPost (EndpointString "/foo") retext]
           "/foo" _ H).
Defined.

(** ** Request objects *)

(** X12: the body of a [Request] object whose method is GET or HEAD is not
    read: whatever reading it would give, text or failure, the intercepted
    call does the same. *)
Theorem get_and_head_bodies_are_not_read (transport : list Call -> Call -> Outcome Payload)
    (h : Hooks) (r : Request) (t : string + JsError) (init : option RequestInit)
    (w : World) :
  req_method r = "GET" ∨ req_method r = "HEAD" →
  hookedFetch transport h (InputRequest (with_req_text t r)) init w
  = hookedFetch transport h (InputRequest r) init w.
Proof.
  intros Hm.
  assert (N : normalize (InputRequest (with_req_text t r)) init w
              = normalize (InputRequest r) init w).
  { unfold normalize, with_req_text. simpl. by destruct Hm as [-> | ->]. }
  unfold hookedFetch. by rewrite N.
Qed.

Lemma get_and_head_bodies_are_not_read_witness :
  (req_method request_foo = "GET" ∨ req_method request_foo = "HEAD") ∧
  hookedFetch transport_ok loaded
    (InputRequest (with_req_text (inr (TypeError "locked")) request_foo)) None world0
  = hookedFetch transport_ok loaded (InputRequest request_foo) None world0.
Proof.
  split; [by left|].
  exact (get_and_head_bodies_are_not_read transport_ok loaded request_foo
           (inr (TypeError "locked")) None world0 (or_introl eq_refl)).
Defined.

(** X13: when a [Request] object with another method can be cloned and
    the [text()] of the clone is rejected, the request is not failed: one
    error is written to the console, and the intercepted call goes on as
    for the same object with an empty body, that is with the body of the
    caller's [init], if any. *)
Theorem unreadable_body_is_left_out (transport : list Call -> Call -> Outcome Payload)
    (h : Hooks) (r : Request) (e : JsError) (init : option RequestInit) (w : World) :
  req_clone r = None →
  req_text r = inr e →
  req_method r ≠ "GET" → req_method r ≠ "HEAD" →
  hookedFetch transport h (InputRequest r) init w
  = hookedFetch transport h (InputRequest (with_req_text (inl "") r)) init
      (console_error failed_to_get_body w).
Proof.
  intros Hc Ht Hg Hh. apply String.eqb_neq in Hg, Hh.
  unfold hookedFetch, normalize, with_req_text.
  cbn [req_url req_method req_headers req_clone req_text].
  by rewrite Hc, Ht, Hg, Hh.
Qed.

(** A POST whose body stream fails while it is read, sent with an [init]
    that has a body of its own. *)
Lemma unreadable_body_is_left_out_witness :
  req_clone request_unreadable = None ∧
  req_text request_unreadable = inr (OtherError "the body stream failed") ∧
  hookedFetch transport_ok loaded (InputRequest request_unreadable) (Some init_text) world0
  = (Resolved response_ok,
     {| w_calls := [(InputString "/foo",
                     Some {| init_method := Some "POST"; init_headers := Some [];
                             init_body := Some (BodyString "data") |})];
        w_console := [failed_to_get_body]; w_next_obj := 1 |}).
Proof.
  split; [reflexivity|]. split; [reflexivity|].
  rewrite (unreadable_body_is_left_out transport_ok loaded request_unreadable
             (OtherError "the body stream failed") (Some init_text) world0
             eq_refl eq_refl)
    by discriminate.
  reflexivity.
Defined.

(** X23: when [clone()] throws on a [Request] object with a method other
    than GET and HEAD, the intercepted call is rejected with what it threw:
    nothing is written to the console, no matcher is looked up and the
    transport is not called. *)
Theorem used_body_rejects_before_transport (transport : list Call -> Call -> Outcome Payload)
    (h : Hooks) (r : Request) (e : JsError) (init : option RequestInit) (w : World) :
  req_clone r = Some e →
  req_method r ≠ "GET" → req_method r ≠ "HEAD" →
  hookedFetch transport h (InputRequest r) init w = (Rejected e, w).
Proof.
  intros Hc Hg Hh. unfold hookedFetch, normalize.
  apply String.eqb_neq in Hg, Hh. rewrite Hg, Hh. simpl. by rewrite Hc.
Qed.

(** A POST whose body has been read, with the identity text hooks
    registered for its URL. *)
Lemma used_body_rejects_before_transport_witness :
  req_clone request_used = Some (TypeError "Request body is already used") ∧
  hookedFetch transport_ok
    (after [CallHookTextPre (EndpointString "/foo") identityTextPre] loaded)
    (InputRequest request_used) (Some init_text) world0
  = (Rejected (TypeError "Request body is already used"), world0).
Proof.
  split; [reflexivity|].
  apply (used_body_rejects_before_transport transport_ok _ request_used
           (TypeError "Request body is already used") (Some init_text) world0 eq_refl);
    discriminate.
Defined.

(** ** Chains that run to the end *)

Lemma run_post_once_index next s index cl w n :
  post_invokes_once s →
  (∀ cl w, (next index cl w).1.1.2 = n) →
  (run_post next s index cl w).1.1.2 = n.
Proof.
  intros H Hn. revert cl w.
  induction s as [|e|k IH|t k IH|k IH]; intros cl w; simpl in *.
  - done.
  - done.
  - apply IH, H.
  - by apply IH.
  - pose proof (Hn cl w) as E.
    destruct (next index cl w) as [[[c i'] cl'] w']. simpl in E. subst i'.
    by apply run_post_never.
Qed.

Lemma applyNextPostCallback_runs_all cbs fuel index cl w :
  Forall (λ cb, ∀ r, post_invokes_once (cb r)) cbs →
  length cbs - index ≤ fuel → index ≤ length cbs →
  (applyNextPostCallback fuel cbs index cl w).1.1.2 = length cbs.
Proof.
  intros Hall. revert index cl w.
  induction fuel as [|fuel IH]; intros index cl w Hf Hi.
  - simpl. lia.
  - rewrite applyNextPostCallback_S.
    destruct (cbs !! index) as [cb|] eqn:E.
    + pose proof (lookup_lt_Some _ _ _ E) as Hlt.
      apply run_post_once_index.
      * eapply Forall_lookup_1 in Hall; [|exact E]. apply Hall.
      * intros cl' w'. apply IH; lia.
    + apply lookup_ge_None in E. simpl. lia.
Qed.

(** X11: when every post-callback of an entry calls its continuation once,
    the chain runs to the end of the list: [index] has passed every
    registered post-callback when the first call of [applyNextPostCallback]
    returns, so each of them has been run, in registration order. *)
Theorem post_chain_runs_all (cbs : list HookPostCallback) (clonedResponse : Response)
    (w : World) :
  Forall (λ cb, ∀ r, post_invokes_once (cb r)) cbs →
  (applyNextPostCallback (post_fuel cbs) cbs 0 clonedResponse w).1.1.2 = length cbs.
Proof.
  intros H. apply applyNextPostCallback_runs_all; [done|unfold post_fuel; lia|lia].
Qed.

(** [retext] and the post-callback of a text hook, each calling its
    continuation once. *)
Lemma post_chain_runs_all_witness :
  Forall (λ cb : Response → PostScript, ∀ r, post_invokes_once (cb r))
    [retext; textPost_callback exclaim] ∧
  (applyNextPostCallback (post_fuel [retext; textPost_callback exclaim])
     [retext; textPost_callback exclaim] 0 response_ok world0).1.1.2 = 2.
Proof.
  assert (H : Forall (λ cb : Response → PostScript, ∀ r, post_invokes_once (cb r))
                [retext; textPost_callback exclaim]).
  { apply Forall_cons_2; [intros r c; exact I|].
    apply Forall_cons_2; [intros r oc c; destruct c; exact I|].
    apply Forall_nil_2. }
  split; [exact H|].
  exact (post_chain_runs_all [retext; textPost_callback exclaim] response_ok world0 H).
Defined.

(** X8: for a request whose body is absent or a string, a text
    pre-callback that calls its continuation once and returns makes one
    transport call, with the input unchanged and the [init] it was given,
    in which the new body, when one is passed and [init] is defined, has
    replaced the old one; its promise settles as that call does, and the
    request goes on with that [init]. *)
Theorem text_pre_hook_substitutes_body (transport : list Call -> Call -> Outcome Payload)
    (callback : HookTextPreCallback) (newBody : option string)
    (input : FetchInput) (init : option RequestInit) (w : World) :
  textual init →
  callback (body_text init) = TextPreOriginal newBody TextPreReturn →
  let init' :=
    match newBody, init with
    | Some b, Some i => Some (set_body (BodyString b) i)
    | _, _ => init
    end in
  run_pre transport (textPre_callback callback input init) input init w
  = ((_originalFetch transport input init' w).1, input, init',
     (_originalFetch transport input init' w).2).
Proof.
  intros Ht Hc init'.
  assert (E : textPre_callback callback input init
              = textPre_executor (callback (body_text init)) input init Pending).
  { unfold textPre_callback, body_text, textual in *.
    destruct init as [i|]; simpl in *; [|done].
    by destruct (init_body i) as [[b|kind]|]. }
  rewrite E, Hc. subst init'. simpl.
  by destruct (_originalFetch transport input _ w) as [[r|e|] w1].
Qed.

(** A POST with body ["data"] through a hook that sends ["x"] instead. *)
Lemma text_pre_hook_substitutes_body_witness :
  textual (Some init_text) ∧
  w_calls (run_pre transport_ok
             (textPre_callback (replace_body "x") (InputString "/foo") (Some init_text))
             (InputString "/foo") (Some init_text) world0).2
  = [(InputString "/foo",
      Some {| init_method := Some "POST"; init_headers := None;
              init_body := Some (BodyString "x") |})].
Proof.
  split; [exact I|].
  rewrite (text_pre_hook_substitutes_body transport_ok (replace_body "x") (Some "x")
             (InputString "/foo") (Some init_text) world0 I eq_refl).
  reflexivity.
Defined.

(** * Settings *)

Section SettingsFacts.

Context {number : Type} (P : Platform number).

Implicit Types (s : Setting number) (b : Browser number) (value : SettingValueType number).

Lemma notify_localStorage s value b l :
  localStorage (notify P s value b l) = localStorage b.
Proof. unfold notify. by destruct (listener_throws P l value). Qed.

Lemma notify_all_localStorage s value ls b :
  localStorage (fold_left (notify P s value) ls b) = localStorage b.
Proof.
  revert b. induction ls as [|l ls IH]; intros b; [done|].
  simpl. by rewrite IH, notify_localStorage.
Qed.

Lemma notify_heard s value b l :
  heard (notify P s value b l) = heard b ++ [(l, value)].
Proof. unfold notify. by destruct (listener_throws P l value). Qed.

Lemma notify_all_heard s value ls b :
  heard (fold_left (notify P s value) ls b) = heard b ++ map (λ l, (l, value)) ls.
Proof.
  revert b. induction ls as [|l ls IH]; intros b; simpl.
  - by rewrite app_nil_r.
  - rewrite IH, notify_heard. by rewrite <- app_assoc.
Qed.

Lemma _save_heard s value b : heard (_save P s value b) = heard b.
Proof.
  unfold _save. destruct (JSON_stringify P value) as [json|]; [|done].
  by destruct (setItem_ok P _ _ _).
Qed.

End SettingsFacts.

(** [getValue] never hands out a stored value that the validator rejects:
    the result passes the validator or is the default value. *)
Lemma getValue_valid_or_default {number : Type} (P : Platform number)
    (s : Setting number) (b : Browser number) :
  _validator s (getValue P s b) = true ∨ getValue P s b = _defaultValue s.
Proof.
  unfold getValue.
  destruct (localStorage b !! _key s) as [stored|]; [|by right].
  destruct (JSON_parse P stored) as [value|]; [|by right].
  destruct (_validator s value) eqn:V; [by left|by right].
Qed.

(** X14: a value that passes the validator, that [JSON.stringify] and
    [JSON.parse] take to a text and back, and whose write the store accepts,
    is stored under the key of the setting by [setValue] and is what
    [getValue] returns after it, with any number of listeners subscribed,
    whether they return or throw.  The listeners are those of this model:
    they are told the value, and do not write to the store or call the
    setting themselves. *)
Theorem setValue_getValue {number : Type} (P : Platform number)
    (s : Setting number) (value : SettingValueType number) (json : string)
    (b : Browser number) :
  _validator s value = true →
  JSON_stringify P value = Some json →
  JSON_parse P json = Some value →
  setItem_ok P (localStorage b) (_key s) json = true →
  getValue P s (setValue P s value b) = value ∧
  localStorage (setValue P s value b) = <[_key s := json]> (localStorage b).
Proof.
  intros Hv Hs Hp Hok. unfold setValue, getValue. rewrite Hv. simpl.
  rewrite notify_all_localStorage. unfold _save. rewrite Hs, Hok. simpl.
  by rewrite lookup_insert_eq, Hp, Hv.
Qed.

(** A toggle set to [true], with a throwing listener subscribed. *)
Lemma setValue_getValue_witness :
  _validator toggle_t (VBoolean true) = true ∧
  getValue platform_Z toggle_t (setValue platform_Z toggle_t (VBoolean true) browser_t)
  = VBoolean true.
Proof.
  split; [reflexivity|].
  exact (proj1 (setValue_getValue platform_Z toggle_t (VBoolean true) "true" browser_t
                  eq_refl eq_refl eq_refl eq_refl)).
Defined.

(** X15: [setValue] with a value the validator accepts calls every
    listener once with that value, in the order of subscription, also when
    the save fails or a listener throws; with a value the validator rejects
    it calls no listener and leaves the store as it is. *)
Theorem setValue_notifies_in_order {number : Type} (P : Platform number)
    (s : Setting number) (value : SettingValueType number) (b : Browser number) :
  (_validator s value = true →
   heard (setValue P s value b) = heard b ++ map (λ l, (l, value)) (_listeners s)) ∧
  (_validator s value = false →
   heard (setValue P s value b) = heard b ∧
   localStorage (setValue P s value b) = localStorage b).
Proof.
  unfold setValue. split; intros ->; simpl.
  - by rewrite notify_all_heard, _save_heard.
  - done.
Qed.

(** The toggle ["t"] set to [true]: listener 7 is called, and throws. *)
Lemma setValue_notifies_in_order_witness :
  _validator toggle_t (VBoolean true) = true ∧
  heard (setValue platform_Z toggle_t (VBoolean true) browser_t) = [(7, VBoolean true)].
Proof.
  split; [reflexivity|].
  exact (proj1 (setValue_notifies_in_order platform_Z toggle_t (VBoolean true) browser_t)
           eq_refl).
Defined.

(** X16: [removeListener] removes the first subscription of the callback
    and nothing else; a callback that is not subscribed leaves the setting as
    it is, and removing a callback right after it was added to a setting that
    did not have it gives the setting back. *)
Theorem removeListener_first_only {number : Type} (callback : nat) (s : Setting number)
    (before behind : list nat) :
  (_listeners s = before ++ callback :: behind → callback ∉ before →
   _listeners (removeListener callback s) = before ++ behind) ∧
  (callback ∉ _listeners s → removeListener callback s = s) ∧
  (callback ∉ _listeners s →
   _listeners (removeListener callback (addListener callback s)) = _listeners s).
Proof.
  assert (G : ∀ (l1 l2 : list nat), callback ∉ l1 →
              list_find (λ l, l = callback) (l1 ++ callback :: l2)
              = Some (length l1, callback)).
  { intros l1 l2 Hn. apply list_find_Some. split; [|split; [done|]].
    - by rewrite list_lookup_middle.
    - intros j y Hj Hlt ->. apply Hn.
      rewrite lookup_app_l in Hj by done. by eapply list_elem_of_lookup_2. }
  split; [|split].
  - intros E Hn. unfold removeListener. rewrite E, (G before behind Hn). simpl.
    by rewrite delete_middle.
  - intros Hn. unfold removeListener.
    destruct (list_find _ _) as [[i x]|] eqn:F; [|done].
    apply list_find_Some in F as (Hi & -> & _).
    destruct Hn. by eapply list_elem_of_lookup_2.
  - intros Hn. unfold removeListener, addListener. simpl.
    rewrite (G (_listeners s) [] Hn). simpl.
    by rewrite delete_middle, app_nil_r.
Qed.

(** Listener 3 subscribed twice around listener 7. *)
Lemma removeListener_first_only_witness :
  (3 ∉ [7]) ∧
  _listeners (removeListener 3 (addListener 3 (addListener 7 (addListener 3 toggle_t))))
  = [7; 7; 3].
Proof.
  assert (H : 3 ∉ [7]) by (intros E%list_elem_of_singleton; discriminate E).
  split; [exact H|].
  exact (proj1 (removeListener_first_only 3
                  (addListener 3 (addListener 7 (addListener 3 toggle_t)))
                  [7] [7; 3])
           eq_refl H).
Defined.

(** X17: a second creation under an id already in use returns the setting
    made by the first, whatever kind, default and validator it asks for, and
    changes neither the manager nor the store. *)
Theorem createSetting_again {number : Type} (P : Platform number) (id : string)
    (d1 d2 : SettingValueType number) (v1 v2 : SettingValueType number → bool)
    (_settings : gmap string (Setting number)) (b : Browser number) :
  let first := _createSetting P id d1 v1 _settings b in
  let second := _createSetting P id d2 v2 first.1.2 first.2 in
  second.1.1 = first.1.1 ∧
  second.1.2 = first.1.2 ∧
  localStorage second.2 = localStorage first.2 ∧
  getSetting id second.1.2 = Some first.1.1.
Proof.
  unfold _createSetting, getSetting.
  destruct (_settings !! id) as [existing|] eqn:E; simpl.
  - by rewrite E.
  - repeat (rewrite lookup_insert_eq; simpl). done.
Qed.

(** X18: the setting made by [createSelect] under a fresh id, from a
    non-empty list of options, always reads as one of the options, whatever
    the store holds when it is read and whether or not the default asked for
    was among the options. *)
Theorem createSelect_reads_an_option {number : Type} (P : Platform number) (id : string)
    (options : list string) (defaultValue : string)
    (_settings : gmap string (Setting number)) (b b' : Browser number) :
  _settings !! id = None → options ≠ [] →
  ∃ x, getValue P (createSelect P id options defaultValue _settings b).1.1 b' = VString x ∧
       includes options x = true.
Proof.
  intros Hfresh Hne.
  set (s := (createSelect P id options defaultValue _settings b).1.1).
  assert (Hval : _validator s = select_validator options).
  { unfold s, createSelect, _createSetting.
    destruct (includes options defaultValue); by rewrite Hfresh. }
  assert (Hdef : ∃ x, _defaultValue s = VString x ∧ includes options x = true).
  { unfold s, createSelect, _createSetting.
    destruct (includes options defaultValue) eqn:I; rewrite Hfresh; simpl.
    - by exists defaultValue.
    - destruct options as [|o options]; [done|]. exists o. split; [done|].
      simpl. by rewrite String.eqb_refl. }
  destruct (getValue_valid_or_default P s b') as [V|D].
  - rewrite Hval in V. destruct (getValue P s b') as [| |x|]; try done. by exists x.
  - by rewrite D.
Qed.

Lemma createSelect_reads_an_option_witness :
  (∅ : gmap string (Setting Z)) !! "theme" = None ∧ ["dark"; "light"] ≠ [] ∧
  ∃ x, getValue platform_Z
         (createSelect platform_Z "theme" ["dark"; "light"] "blue" ∅ browser0).1.1
         browser0 = VString x ∧
       includes ["dark"; "light"] x = true.
Proof.
  split; [reflexivity|]. split; [discriminate|].
  exact (createSelect_reads_an_option platform_Z "theme" ["dark"; "light"] "blue"
           ∅ browser0 browser0 eq_refl ltac:(discriminate)).
Defined.

(** X19: the settings made under a fresh id by [createToggle],
    [createString] and [createNumber] read values of their kind, whatever the
    store holds: a toggle reads a boolean; a string setting reads its default
    or a string no longer than the maximum; a number setting reads its
    default or a number that is neither below the minimum nor above the
    maximum. *)
Theorem created_settings_read_their_kind {number : Type} (P : Platform number)
    (id : string) (_settings : gmap string (Setting number)) (b b' : Browser number)
    (onoff : bool) (str : string) (maxLength : option nat)
    (num : number) (min max : option number) :
  _settings !! id = None →
  (∃ x, getValue P (createToggle P id onoff _settings b).1.1 b' = VBoolean x) ∧
  (∃ x, getValue P (createString P id str maxLength _settings b).1.1 b' = VString x ∧
        (x = str ∨ ∀ n, maxLength = Some n → String.length x ≤ n)) ∧
  (∃ x, getValue P (createNumber P id num min max _settings b).1.1 b' = VNumber x ∧
        (x = num ∨
         ((∀ m, min = Some m → number_lt P x m = false) ∧
          (∀ m, max = Some m → number_lt P m x = false)))).
Proof.
  intros Hfresh. unfold createToggle, createString, createNumber, _createSetting.
  rewrite Hfresh. simpl. split; [|split].
  - match goal with |- ∃ x, getValue P ?s b' = _ =>
      destruct (getValue_valid_or_default P s b') as [V|D] end.
    + simpl in V. match type of V with toggle_validator ?v = true =>
        destruct v as [x| | |]; try done end. by exists x.
    + rewrite D. by eexists.
  - match goal with |- ∃ x, getValue P ?s b' = _ ∧ _ =>
      destruct (getValue_valid_or_default P s b') as [V|D] end.
    + simpl in V. match type of V with string_validator _ ?v = true =>
        destruct v as [| |x|]; try done end.
      exists x. split; [done|]. right. intros n ->. simpl in V.
      destruct (n <? String.length x) eqn:L; [done|]. by apply Nat.ltb_ge in L.
    + rewrite D. exists str. split; [done|by left].
  - match goal with |- ∃ x, getValue P ?s b' = _ ∧ _ =>
      destruct (getValue_valid_or_default P s b') as [V|D] end.
    + simpl in V. match type of V with number_validator _ _ _ ?v = true =>
        destruct v as [|x| |]; try done end.
      exists x. split; [done|]. right. simpl in V. split.
      * intros m ->. by destruct (number_lt P x m).
      * intros m ->. destruct (match min with Some m0 => number_lt P x m0 | None => false end);
          [done|]. by destruct (number_lt P m x).
    + rewrite D. exists num. split; [done|by left].
Qed.

Lemma created_settings_read_their_kind_witness :
  (∅ : gmap string (Setting Z)) !! "cooldown_time" = None ∧
  ∃ x, getValue platform_Z
         (createNumber platform_Z "cooldown_time" 5%Z (Some 1%Z) (Some 10%Z) ∅ browser0).1.1
         browser0 = VNumber x ∧
       (x = 5%Z ∨
        ((∀ m, Some 1%Z = Some m → number_lt platform_Z x m = false) ∧
         (∀ m, Some 10%Z = Some m → number_lt platform_Z m x = false))).
Proof.
  split; [reflexivity|].
  exact (proj2 (proj2 (created_settings_read_their_kind platform_Z "cooldown_time"
                         ∅ browser0 browser0 false "" None 5%Z (Some 1%Z) (Some 10%Z)
                         eq_refl))).
Defined.

(** X20: constructing a setting does not change what it reads, provided
    the default value comes back from its JSON text: a stored value that
    parses and passes the validator is left in the store untouched, and in
    every other case the setting read the default before and reads it after,
    whether or not the default could be saved. *)
Theorem construction_keeps_the_value {number : Type} (P : Platform number)
    (id : string) (defaultValue : SettingValueType number)
    (validator : SettingValueType number → bool) (b : Browser number) :
  (∀ json, JSON_stringify P defaultValue = Some json →
           JSON_parse P json = Some defaultValue) →
  getValue P (new_Setting P id defaultValue validator b).1
    (new_Setting P id defaultValue validator b).2
  = getValue P (new_Setting P id defaultValue validator b).1 b ∧
  (∀ stored value,
     localStorage b !! ("upl_setting_" +:+ id) = Some stored →
     JSON_parse P stored = Some value → validator value = true →
     (new_Setting P id defaultValue validator b).2 = b).
Proof.
  intros Hrt. unfold new_Setting. simpl.
  set (s := {| _id := id; _key := "upl_setting_" +:+ id; _defaultValue := defaultValue;
               _validator := validator; _listeners := [] |}).
  assert (S : ∀ b0, localStorage b0 = localStorage b →
                getValue P s b = defaultValue →
                getValue P s (_save P s defaultValue b0) = defaultValue).
  { intros b0 E G. unfold _save.
    destruct (JSON_stringify P defaultValue) as [json|] eqn:J.
    - destruct (setItem_ok P _ _ _).
      + unfold getValue. simpl. rewrite lookup_insert_eq, (Hrt json eq_refl).
        by destruct (validator defaultValue).
      + unfold getValue in *. simpl in *. by rewrite E.
    - unfold getValue in *. simpl in *. by rewrite E. }
  split.
  - unfold _load. change (_key s) with ("upl_setting_" +:+ id).
    destruct (localStorage b !! ("upl_setting_" +:+ id)) as [stored|] eqn:L.
    + destruct (JSON_parse P stored) as [value|] eqn:Pj.
      * change (_validator s value) with (validator value).
        destruct (validator value) eqn:V; [done|].
        assert (G : getValue P s b = defaultValue).
        { unfold getValue. simpl. by rewrite L, Pj, V. }
        by rewrite S, G.
      * assert (G : getValue P s b = defaultValue).
        { unfold getValue. simpl. by rewrite L, Pj. }
        by rewrite S, G.
    + assert (G : getValue P s b = defaultValue).
      { unfold getValue. simpl. by rewrite L. }
      by rewrite S, G.
  - intros stored value L Pj V. unfold _load. simpl. by rewrite L, Pj, V.
Qed.

Lemma construction_keeps_the_value_witness :
  (∀ json, JSON_stringify platform_Z (VBoolean false) = Some json →
           JSON_parse platform_Z json = Some (VBoolean false)) ∧
  getValue platform_Z (new_Setting platform_Z "t" (VBoolean false) toggle_validator browser0).1
    (new_Setting platform_Z "t" (VBoolean false) toggle_validator browser0).2
  = getValue platform_Z
      (new_Setting platform_Z "t" (VBoolean false) toggle_validator browser0).1 browser0.
Proof.
  assert (H : ∀ json, JSON_stringify platform_Z (VBoolean false) = Some json →
                      JSON_parse platform_Z json = Some (VBoolean false)).
  { intros json E. injection E as <-. reflexivity. }
  split; [exact H|].
  exact (proj1 (construction_keeps_the_value platform_Z "t" (VBoolean false)
                  toggle_validator browser0 H)).
Defined.

(** * Load callbacks *)

Lemma call_load_callbacks_called throws callbacks called :
  (call_load_callbacks throws callbacks called).2 = called ++ until_throw throws callbacks.
Proof.
  revert called. induction callbacks as [|c cs IH]; intros called; simpl.
  - by rewrite app_nil_r.
  - destruct (throws c); [done|]. rewrite IH. by rewrite <- app_assoc.
Qed.

Lemma fired_stays throws events o called :
  fired o →
  (fold_left (load_step throws) events (o, called)).2 = called ∧
  fired (fold_left (load_step throws) events (o, called)).1.
Proof.
  revert o. induction events as [|ev events IH]; intros o F; [done|].
  destruct F as (F1 & F2 & F3). simpl.
  destruct ev as [cb|]; simpl.
  - apply IH. unfold subscribeToLoad. rewrite F2. simpl. done.
  - unfold screen_removed. rewrite F3. simpl.
    unfold load_handler. rewrite F1. simpl. by apply IH.
Qed.

Lemma screen_removed_first throws o called :
  _entriesDeletion o = [(loading_screen, LoadHandler)] →
  loadedOnce o = false →
  screen_removed throws o called
  = ({| _entriesDeletion := _entriesDeletion o;
        observer_initOnce := observer_initOnce o; observing := observing o;
        loadCallbacks := loadCallbacks o; loadInitialized := loadInitialized o;
        loadedOnce := true |},
     called ++ until_throw throws (loadCallbacks o)).
Proof.
  intros E L. destruct o as [entries t obs cbs ini once]. simpl in E, L. subst.
  unfold screen_removed, load_handler. cbn -[call_load_callbacks until_throw].
  pose proof (call_load_callbacks_called throws cbs called) as C.
  destruct (call_load_callbacks throws cbs called) as [c called'].
  simpl in C. by subst called'.
Qed.

Lemma waiting_run throws events subscribed o called :
  waiting subscribed o →
  (fold_left (load_step throws) events (o, called)).2
    = called ++ load_calls throws events subscribed ∧
  _entriesDeletion (fold_left (load_step throws) events (o, called)).1
    = match subscribed with
      | [] => if existsb is_Subscribe events then [(loading_screen, LoadHandler)] else []
      | _ => [(loading_screen, LoadHandler)]
      end.
Proof.
  revert subscribed o called.
  induction events as [|ev events IH]; intros subscribed o called (W1 & W2 & W3).
  - simpl. rewrite app_nil_r. split; [done|]. by destruct subscribed; destruct W3.
  - destruct ev as [cb|]; simpl.
    + assert (W : waiting (subscribed ++ [cb]) (subscribeToLoad cb o)).
      { unfold waiting, subscribeToLoad, subscribeToElementDeletion, observer_trigger.
        destruct o as [entries [t] obs cbs ini once]. simpl in *.
        destruct subscribed as [|x xs]; destruct W3 as [W3 W4]; subst; simpl.
        - by destruct t.
        - done. }
      destruct (IH _ _ called W) as [I1 I2]. split; [done|].
      rewrite I2. by destruct subscribed.
    + destruct subscribed as [|x xs]; destruct W3 as [W3 W4].
      * unfold screen_removed. rewrite W4. simpl.
        apply (IH [] o called). by repeat split.
      * rewrite (screen_removed_first throws o called W4 W1), W2.
        match goal with
        | |- context [fold_left _ events (?o', _)] =>
            destruct (fired_stays throws events o' (called ++ until_throw throws (x :: xs)))
              as [F1 (_ & _ & F2)]; [by repeat split|]
        end.
        by rewrite F1, F2.
Qed.

Lemma load_calls_subscribes throws subscribed events acc :
  load_calls throws (map Subscribe subscribed ++ events) acc
  = load_calls throws events (acc ++ subscribed).
Proof.
  revert acc. induction subscribed as [|c cs IH]; intros acc; simpl.
  - by rewrite app_nil_r.
  - rewrite IH. by rewrite <- app_assoc.
Qed.

(** X21: load callbacks are called at most once, and only at the first
    removal of the loading screen that follows a subscription: that removal
    calls the callbacks subscribed so far, in the order of subscription, up
    to and including the first that throws; a callback behind one that
    throws, a callback subscribed later and every later removal of the
    screen get no call. *)
Theorem load_callbacks_fire_once (throws : nat → bool) (events : list LoadEvent) :
  (load_run throws events).2 = load_calls throws events [] ∧
  (∀ subscribed rest, subscribed ≠ [] →
     events = map Subscribe subscribed ++ ScreenRemoved :: rest →
     (load_run throws events).2 = until_throw throws subscribed).
Proof.
  assert (G : (load_run throws events).2 = load_calls throws events []).
  { unfold load_run.
    destruct (waiting_run throws events [] observer0 []) as [H _]; [by repeat split|].
    by rewrite H. }
  split; [done|]. intros subscribed rest Hne ->. rewrite G.
  rewrite load_calls_subscribes. simpl. by destruct subscribed.
Qed.

(** Callbacks 1, 2 and 3 subscribed, 2 throws; the screen goes; callback 4
    subscribes; the screen goes again. *)
Lemma load_callbacks_fire_once_witness :
  ([1; 2; 3] ≠ []) ∧
  (load_run second_throws
     (map Subscribe [1; 2; 3] ++ ScreenRemoved :: [Subscribe 4; ScreenRemoved])).2
  = [1; 2].
Proof.
  split; [discriminate|].
  exact (proj2 (load_callbacks_fire_once second_throws
                  (map Subscribe [1; 2; 3] ++ ScreenRemoved :: [Subscribe 4; ScreenRemoved]))
           [1; 2; 3] [Subscribe 4; ScreenRemoved] ltac:(discriminate) eq_refl).
Defined.

